(** * A shallow embedding of the Scheme evaluator of [scheme.py]

    The development follows the layout of the source file: the object
    model that the evaluator manipulates, the environment frames, the
    special forms, the eval/apply recurrence and its tail-call preserving
    variant; the properties of the evaluator come last.

    Python control flow is rendered in a state-and-exception monad over a
    store of frames.  Recursion through [scheme_eval] and [scheme_apply] is
    bounded by a step budget; running out of budget stands for an
    evaluation that does not return. *)

From Stdlib Require Import ZArith Ascii Lia.
From stdpp Require Import base option list strings gmap.

Local Open Scope string_scope.
Local Open Scope list_scope.

(** ** The objects of the interpreter *)

(** Frames live in a store and are referred to by their index: several
    closures and call frames may share the same parent. *)
Abbreviation loc := nat.

(** The host callable behind a primitive procedure, with its [use_env]
    flag.  [create_global_frame] registers the evaluator itself under
    [eval] and [apply], both with the flag set; every other primitive
    belongs to the primitive library and is known by name. *)
Inductive py_fn :=
  | fn_scheme_eval
  | fn_scheme_apply
  | fn_host (name : string) (use_env : bool).

(** Every Python object that can flow through the evaluator.  Symbols and
    Scheme strings are both host strings; numbers are host integers. *)
Inductive value :=
  | PyNone
  | PyBool (b : bool)
  | PyInt (z : Z)
  | PyStr (s : string)
  | Nil
  | Okay
  | Pair (first second : value)
  | PrimitiveProcedure (fn : py_fn)
  | LambdaProcedure (formals body : value) (env : loc)
  | MuProcedure (formals body : value).

(** What is wrong with an [else] clause of [cond]. *)
Inductive else_defect := ElseNotLast | ElseWithoutBody.

(** The messages carried by [SchemeError], one constructor per message of
    the source. *)
Inductive scheme_error :=
  | UndefinedExpression                  (* Cannot evaluate an undefined expression. *)
  | MalformedExpression (expr : value)   (* malformed list *)
  | UnboundIdentifier (symbol : string)  (* unknown identifier *)
  | ArityMismatch                        (* parameter mismatch *)
  | InvalidBindingTarget (sym : value)   (* bad variable name *)
  | NotCallable (procedure : value)      (* Cannot call *)
  | CallError                            (* a host type error of a primitive *)
  | InvalidDefineTarget                  (* bad argument to define *)
  | BadBindingsList                      (* bad bindings list in let form *)
  | BadlyFormedExpression (expr : value) (* badly formed expression *)
  | TooFewOperands                       (* too few operands in form *)
  | TooManyOperands                      (* too many operands in form *)
  | MalformedElseClause (why : else_defect)
                             (* else must be last; badly formed else clause *)
  | DuplicateFormal (formal : value)     (* duplicate formal parameter *)
  | InvalidFormal (formal : value).      (* formal parameter is not valid *)

(** The exceptions that can leave the evaluator: its own [SchemeError] and
    the host exceptions raised by ill-typed attribute access, indexing and
    calls. *)
Inductive exn :=
  | SchemeError (e : scheme_error)
  | TypeError
  | AttributeError
  | IndexError.

Global Instance py_fn_eq_dec : EqDecision py_fn.
Proof. solve_decision. Defined.

Global Instance value_eq_dec : EqDecision value.
Proof. solve_decision. Defined.

Record Frame := mkFrame {
  bindings : gmap string value;
  parent : option loc
}.

Abbreviation store := (list Frame).

(** ** Results and the evaluation monad *)

(** A Python call either returns or raises. *)
Definition result (A : Type) : Type := (exn + A)%type.

Definition rbind {A B} (r : result A) (k : A -> result B) : result B :=
  match r with
  | inl e => inl e
  | inr a => k a
  end.

(** A computation reads and updates the store of frames; [None] stands
    for a computation that never returns. *)
Definition M (A : Type) : Type := store -> option (store * result A).

Definition ret {A} (a : A) : M A := fun h => Some (h, inr a).
Definition raise {A} (e : exn) : M A := fun h => Some (h, inl e).
Definition diverge {A} : M A := fun _ => None.
Definition lift {A} (r : result A) : M A := fun h => Some (h, r).

Definition bind {A B} (m : M A) (k : A -> M B) : M B :=
  fun h =>
    match m h with
    | None => None
    | Some (h', inl e) => Some (h', inl e)
    | Some (h', inr a) => k a h'
    end.

Notation "'let?' x := r 'in' k" := (rbind r (fun x => k))
  (at level 10, x name, r at level 100, k at level 200).
Notation "'do' x <- m 'in' k" := (bind m (fun x => k))
  (at level 10, x name, m at level 100, k at level 200).
Notation "'do' ' p <- m 'in' k" := (bind m (fun x => let 'p := x in k))
  (at level 10, p strict pattern, m at level 100, k at level 200).
Notation "'exec' m 'in' k" := (bind m (fun _ => k))
  (at level 10, m at level 100, k at level 200).

Definition scheme_raise {A} (e : scheme_error) : M A := raise (SchemeError e).

(** The primitive library and the predicates of [scheme_primitives] are
    external to the evaluator.  A host primitive receives the argument
    sequence, with the calling frame when it asked for it, and runs against
    the store.  [null_is_atom] says whether [scheme_atomp] accepts the empty
    list, that is, whether the empty list evaluates to itself. *)
Class Host := {
  host_call : string -> list value -> option loc -> M value;
  null_is_atom : bool
}.

(** ** Host-level behaviour of the objects *)

(** The classes [Pair] and [nil] and the predicates [scheme_symbolp],
    [scheme_atomp], [scheme_listp], ... belong to the reader and to the
    primitive library, which are not part of [scheme.py]; what the
    evaluator needs of them is given here. *)

Definition dquote : ascii := "034"%char.

(** Modelled from the spec: symbols and strings are both host strings; a
    Scheme string keeps the double quote it was read with, which is what
    tells it apart from a symbol. *)
Definition scheme_stringp (x : value) : bool :=
  match x with
  | PyStr (String c _) => Ascii.eqb c dquote
  | _ => false
  end.

Definition scheme_symbolp (x : value) : bool :=
  match x with
  | PyStr _ => negb (scheme_stringp x)
  | _ => false
  end.

(** Modelled from the spec: booleans and numbers are atoms of their own
    kind.  A host boolean is a host integer as well. *)
Definition scheme_booleanp (x : value) : bool :=
  match x with PyBool _ => true | _ => false end.

Definition scheme_numberp (x : value) : bool :=
  match x with PyInt _ | PyBool _ => true | _ => false end.

Definition scheme_nullp (x : value) : bool :=
  match x with Nil => true | _ => false end.

(** Modelled from the spec: atoms are the self-evaluating literals and the
    symbols; whether the empty list counts as an atom is left to the
    primitive library, see [null_is_atom]. *)
Definition scheme_atomp `{Host} (x : value) : bool :=
  scheme_booleanp x || scheme_numberp x || scheme_symbolp x
  || (null_is_atom && scheme_nullp x).

(** Modelled from the spec: every value is true except the false atom. *)
Definition scheme_true (val : value) : bool :=
  match val with PyBool false => false | _ => true end.

Definition scheme_false (val : value) : bool :=
  match val with PyBool false => true | _ => false end.

Definition is_none (x : value) : bool :=
  match x with PyNone => true | _ => false end.

Definition is_okay (x : value) : bool :=
  match x with Okay => true | _ => false end.

(** [x == s] for a host string literal [s]. *)
Definition eq_str (x : value) (s : string) : bool :=
  match x with PyStr t => String.eqb t s | _ => false end.

(** [x == nil]: only the empty list equals the empty list. *)
Definition eq_nil (x : value) : bool := scheme_nullp x.

(** Modelled from the spec: a proper list is a chain of pairs terminated
    by the empty list. *)
Fixpoint scheme_listp (x : value) : bool :=
  match x with
  | Nil => true
  | Pair _ second => scheme_listp second
  | _ => false
  end.

(** Modelled from the spec: a pair has a [first] and a [second] (its
    rest); these attributes exist on pairs only. *)
Definition attr_first (x : value) : result value :=
  match x with Pair first _ => inr first | _ => inl AttributeError end.

Definition attr_second (x : value) : result value :=
  match x with Pair _ second => inr second | _ => inl AttributeError end.

(** Modelled from the spec: [len] of a proper list is its number of
    elements; an improper list has no length.  A host string has the
    length of its text. *)
Fixpoint pair_len (x : value) : result nat :=
  match x with
  | Nil => inr 0
  | Pair _ second => let? n := pair_len second in inr (S n)
  | _ => inl TypeError
  end.

Definition py_len (x : value) : result nat :=
  match x with
  | PyStr s => inr (String.length s)
  | _ => pair_len x
  end.

(** Modelled from the spec: [x[k]] walks [k] links of a list; running off
    the end is an index error and an improper tail a type error.  A host
    string is indexed by character; other objects are not subscriptable. *)
Fixpoint pair_getitem (first second : value) (k : nat) {struct k}
    : result value :=
  match k with
  | 0 => inr first
  | S k =>
      match second with
      | Nil => inl IndexError
      | Pair first' second' => pair_getitem first' second' k
      | _ => inl TypeError
      end
  end.

Definition py_getitem (x : value) (k : nat) : result value :=
  match x with
  | Pair first second => pair_getitem first second k
  | Nil => inl IndexError
  | PyStr s =>
      match String.get k s with
      | Some c => inr (PyStr (String c EmptyString))
      | None => inl IndexError
      end
  | _ => inl TypeError
  end.

(** Modelled from the spec: the items visited by a [for] loop over a
    well-formed list are its elements, in order (over a host string, its
    characters). *)
Fixpoint pair_items (x : value) : result (list value) :=
  match x with
  | Nil => inr []
  | Pair first second => let? l := pair_items second in inr (first :: l)
  | _ => inl TypeError
  end.

Definition py_iter (x : value) : result (list value) :=
  match x with
  | PyStr s =>
      inr (map (fun c => PyStr (String c EmptyString))
             (String.list_ascii_of_string s))
  | _ => pair_items x
  end.

(** Modelled from the spec: [p.map(fn)] applies [fn] to the elements from
    left to right and builds the list of the results; a tail that is
    neither a pair nor the empty list is a type error. *)
Fixpoint pair_map (fn : value -> M value) (p : value) : M value :=
  match p with
  | Nil => ret Nil
  | Pair first second =>
      do mapped <- fn first in
      match second with
      | Nil | Pair _ _ =>
          do rest <- pair_map fn second in
          ret (Pair mapped rest)
      | _ => raise TypeError
      end
  | _ => raise AttributeError
  end.

(** [list_from_pair]: the host list of the elements of a Scheme list. *)
Fixpoint list_from_pair (p : value) : result (list value) :=
  match p with
  | Nil => inr []
  | Pair first second => let? l := list_from_pair second in inr (first :: l)
  | _ => inl AttributeError
  end.

(** The Scheme list of a host list, as the reader builds it. *)
Fixpoint scheme_list (l : list value) : value :=
  match l with
  | [] => Nil
  | x :: l => Pair x (scheme_list l)
  end.

(** ** Environments *)

(** [Frame(parent)]: a new empty frame at the end of the store. *)
Definition new_frame (parent : option loc) : M loc :=
  fun h => Some (h ++ [mkFrame ∅ parent], inr (length h)).

Definition set_binding (sym : string) (val : value) (fr : Frame) : Frame :=
  mkFrame (<[sym := val]> (bindings fr)) (parent fr).

(** [Frame.define]: bind in the frame itself, never in a parent. *)
Definition define (self : loc) (sym val : value) : M unit :=
  match sym with
  | PyStr s =>
      if scheme_symbolp sym
      then fun h => Some (alter (set_binding s val) self h, inr tt)
      else scheme_raise (InvalidBindingTarget sym)
  | _ => scheme_raise (InvalidBindingTarget sym)
  end.

(** The walk of [Frame.lookup] up the parent chain.  The budget bounds the
    number of frames visited; a chain of a well-formed store is never
    longer than the store.  A reference to a frame that the store does not
    hold gives no result. *)
Fixpoint lookup_walk (budget : nat) (h : store) (self : option loc)
    (symbol : string) : option (result value) :=
  match self with
  | None => Some (inl (SchemeError (UnboundIdentifier symbol)))
  | Some l =>
      match budget with
      | 0 => None
      | S budget =>
          match h !! l with
          | None => None
          | Some fr =>
              match bindings fr !! symbol with
              | Some v => Some (inr v)
              | None => lookup_walk budget h (parent fr) symbol
              end
          end
      end
  end.

Definition lookup (self : loc) (symbol : string) : M value :=
  fun h =>
    match lookup_walk (length h) h (Some self) symbol with
    | None => None
    | Some r => Some (h, r)
    end.

(** The walk of [Frame.global_frame] up to the frame without parent, with
    the same budget as [lookup_walk]. *)
Fixpoint global_frame_walk (budget : nat) (h : store) (e : loc) : option loc :=
  match budget with
  | 0 => None
  | S budget =>
      match h !! e with
      | None => None
      | Some fr =>
          match parent fr with
          | None => Some e
          | Some p => global_frame_walk budget h p
          end
      end
  end.

Definition global_frame (self : loc) : M loc :=
  fun h =>
    match global_frame_walk (length h) h self with
    | None => None
    | Some e => Some (h, inr e)
    end.

(** The loop of [make_call_frame]; it runs until both lists are empty at
    the same time. *)
Fixpoint bind_formals (frame : loc) (formals vals : value) : M unit :=
  match formals, vals with
  | Nil, Nil => ret tt
  | Nil, _ => scheme_raise ArityMismatch
  | Pair first second, Pair vfirst vsecond =>
      exec define frame first vfirst in
      bind_formals frame second vsecond
  | _, Nil => scheme_raise ArityMismatch
  | _, _ => raise AttributeError
  end.

Definition make_call_frame (self : loc) (formals vals : value) : M loc :=
  do frame <- new_frame (Some self) in
  exec bind_formals frame formals vals in
  ret frame.

(** ** Validators *)

Definition check_form (expr : value) (min : nat) (max : option nat) : result unit :=
  if negb (scheme_listp expr) then inl (SchemeError (BadlyFormedExpression expr))
  else
    let? length := py_len expr in
    if (length <? min)%nat then inl (SchemeError TooFewOperands)
    else match max with
         | Some max =>
             if (max <? length)%nat then inl (SchemeError TooManyOperands) else inr tt
         | None => inr tt
         end.

(** Modelled from the spec: a pair has no identity beyond structural
    equality, and the host does not hash the objects of a class that
    defines its own equality.  The source says as much: [scheme_eval] tests
    [scheme_symbolp] before it looks the first element of a list up in
    [LOGIC_FORMS], since that element might be unhashable.  Names, numbers,
    booleans, the empty list and the procedures are hashable. *)
Definition hashable (x : value) : bool :=
  match x with
  | Pair _ _ => false
  | _ => true
  end.

(** [x in formals_set]: the host hashes [x] first and raises a type error
    when it cannot.  Only symbols are ever added to the set, so it is a set
    of host strings, and a name only equals the same name. *)
Definition in_set (x : value) (formals_set : gset string) : result bool :=
  if negb (hashable x) then inl TypeError
  else
    match x with
    | PyStr s => inr (bool_decide (s ∈ formals_set))
    | _ => inr false
    end.

Definition set_add (x : value) (formals_set : gset string) : gset string :=
  match x with
  | PyStr s => {[ s ]} ∪ formals_set
  | _ => formals_set
  end.

Fixpoint check_formals_from (formals_set : gset string) (formals : value)
    : result unit :=
  match formals with
  | Nil => inr tt
  | Pair first second =>
      let? duplicate := in_set first formals_set in
      if duplicate
      then inl (SchemeError (DuplicateFormal first))
      else if negb (scheme_symbolp first)
      then inl (SchemeError (InvalidFormal first))
      else check_formals_from (set_add first formals_set) second
  | _ => inl AttributeError
  end.

Definition check_formals (formals : value) : result unit :=
  check_formals_from ∅ formals.

(** ** Special forms *)

(** The evaluator is passed to the forms that call it back. *)
Definition evaluator := value -> loc -> M value.
Definition applier := value -> value -> loc -> M value.

Definition quote (val : value) : value :=
  Pair (PyStr "quote") (Pair val Nil).

Definition do_lambda_form (vals : value) (env : loc) : result value :=
  let? _ := check_form vals 2 None in
  let? formals := py_getitem vals 0 in
  let? _ := check_formals formals in
  let? n := py_len vals in
  let? body :=
    (if (n =? 2)%nat then py_getitem vals 1
     else let? second := attr_second vals in inr (Pair (PyStr "begin") second)) in
  inr (LambdaProcedure formals body env).

Definition do_mu_form (vals : value) : result value :=
  let? _ := check_form vals 2 None in
  let? formals := py_getitem vals 0 in
  let? _ := check_formals formals in
  let? n := py_len vals in
  let? body :=
    (if (n =? 2)%nat then py_getitem vals 1
     else let? second := attr_second vals in inr (Pair (PyStr "begin") second)) in
  inr (MuProcedure formals body).

Definition do_define_form (ev : evaluator) (vals : value) (env : loc) : M value :=
  exec lift (check_form vals 2 None) in
  do target <- lift (py_getitem vals 0) in
  if scheme_symbolp target then
    exec lift (check_form vals 2 (Some 2)) in
    do expr <- lift (py_getitem vals 1) in
    do val <- ev expr env in
    exec define env target val in
    ret target
  else
    match target with
    | Pair name formals =>
        do body <- lift (attr_second vals) in
        do f <- lift (do_lambda_form (Pair formals body) env) in
        exec define env name f in
        ret name
    | _ => scheme_raise InvalidDefineTarget
    end.

Definition do_quote_form (vals : value) : result value :=
  let? _ := check_form vals 1 (Some 1) in
  attr_first vals.

(** The binding loop of [do_let_form]: each value expression is evaluated
    in [env], each name is defined in [new_env]. *)
Fixpoint let_bindings (ev : evaluator) (env new_env : loc) (pairs : list value)
    : M unit :=
  match pairs with
  | [] => ret tt
  | binding :: pairs =>
      do name <- lift (py_getitem binding 0) in
      do expr <- lift (py_getitem binding 1) in
      do val <- ev expr env in
      exec define new_env name val in
      let_bindings ev env new_env pairs
  end.

(** [for i in range(i, i + count): scheme_eval(exprs[i], env)] *)
Fixpoint eval_range (ev : evaluator) (exprs : value) (env : loc) (i count : nat)
    : M unit :=
  match count with
  | 0 => ret tt
  | S count =>
      do expr <- lift (py_getitem exprs i) in
      exec ev expr env in
      eval_range ev exprs env (S i) count
  end.

Definition do_let_form (ev : evaluator) (vals : value) (env : loc)
    : M (value * loc) :=
  exec lift (check_form vals 2 None) in
  do bindings <- lift (py_getitem vals 0) in
  do exprs <- lift (attr_second vals) in
  if negb (scheme_listp bindings) then scheme_raise BadBindingsList
  else
    do new_env <- make_call_frame env Nil Nil in
    do pairs <- lift (py_iter bindings) in
    exec let_bindings ev env new_env pairs in
    do n <- lift (py_len exprs) in
    match n with
    | 0 => raise IndexError
    | S last =>
        exec eval_range ev exprs new_env 0 last in
        do expr <- lift (py_getitem exprs last) in
        ret (expr, new_env)
    end.

(** *** Logical special forms *)

Definition do_if_form (ev : evaluator) (vals : value) (env : loc) : M value :=
  exec lift (check_form vals 2 (Some 3)) in
  do test <- lift (py_getitem vals 0) in
  do expression <- ev test env in
  if scheme_true expression then lift (py_getitem vals 1)
  else
    match py_getitem vals 2 with
    | inl IndexError => ret Okay
    | r => lift r
    end.

(** The loop of [do_and_form] from index [i] on, [count] operands left;
    [test] is the value of the operand before. *)
Fixpoint and_loop (ev : evaluator) (vals : value) (env : loc) (i count : nat)
    (test : value) : M value :=
  match count with
  | 0 => ret (quote test)
  | S count =>
      do expr <- lift (py_getitem vals i) in
      do test <- ev expr env in
      if scheme_false test then ret (PyBool false)
      else and_loop ev vals env (S i) count test
  end.

(** With no operand the loop is not entered; otherwise its first round
    assigns [test], so the initial value below is never read. *)
Definition do_and_form (ev : evaluator) (vals : value) (env : loc) : M value :=
  do n <- lift (py_len vals) in
  if (n =? 0)%nat then ret (PyBool true)
  else and_loop ev vals env 0 n PyNone.

(** The loop of [do_or_form] over all operands but the last, which sits at
    index [last]. *)
Fixpoint or_loop (ev : evaluator) (vals : value) (env : loc) (i count last : nat)
    : M value :=
  match count with
  | 0 => lift (py_getitem vals last)
  | S count =>
      do expr <- lift (py_getitem vals i) in
      do test <- ev expr env in
      if scheme_true test then ret (quote test)
      else or_loop ev vals env (S i) count last
  end.

Definition do_or_form (ev : evaluator) (vals : value) (env : loc) : M value :=
  do n <- lift (py_len vals) in
  match n with
  | 0 => ret (PyBool false)
  | S last => or_loop ev vals env 0 last last
  end.

(** The loop of [do_cond_form] over the clauses from index [i] on. *)
Fixpoint cond_loop (ev : evaluator) (env : loc) (num_clauses i : nat)
    (clauses : list value) : M value :=
  match clauses with
  | [] => ret Okay
  | clause :: clauses =>
      exec lift (check_form clause 1 None) in
      do first <- lift (attr_first clause) in
      do second <- lift (attr_second clause) in
      do test <-
        (if eq_str first "else" then
           if (i <? num_clauses - 1)%nat
           then scheme_raise (MalformedElseClause ElseNotLast)
           else if eq_nil second
           then scheme_raise (MalformedElseClause ElseWithoutBody)
           else ret (PyBool true)
         else ev first env) in
      if scheme_true test then
        do n <- lift (py_len second) in
        if (n =? 0)%nat then ret (quote test)
        else if (1 <? n)%nat then ret (Pair (PyStr "begin") second)
        else lift (attr_first second)
      else cond_loop ev env num_clauses (S i) clauses
  end.

Definition do_cond_form (ev : evaluator) (vals : value) (env : loc) : M value :=
  do num_clauses <- lift (py_len vals) in
  do clauses <- lift (py_iter vals) in
  cond_loop ev env num_clauses 0 clauses.

(** The loop of [do_begin_form]; [returned] is the value of the operand
    before. *)
Fixpoint begin_loop (ev : evaluator) (env : loc) (vals returned : value)
    : M value :=
  match vals with
  | Nil => ret (quote returned)
  | Pair first second =>
      do returned <- ev first env in
      begin_loop ev env second returned
  | _ => raise AttributeError
  end.

Definition do_begin_form (ev : evaluator) (vals : value) (env : loc) : M value :=
  exec lift (check_form vals 1 None) in
  begin_loop ev env vals PyNone.

Definition LOGIC_FORMS (name : string)
    : option (evaluator -> value -> loc -> M value) :=
  if String.eqb name "and" then Some do_and_form
  else if String.eqb name "or" then Some do_or_form
  else if String.eqb name "if" then Some do_if_form
  else if String.eqb name "cond" then Some do_cond_form
  else if String.eqb name "begin" then Some do_begin_form
  else None.

(** [first in LOGIC_FORMS], guarded by [scheme_symbolp first]. *)
Definition logic_form (first : value)
    : option (evaluator -> value -> loc -> M value) :=
  match first with
  | PyStr name => if scheme_symbolp first then LOGIC_FORMS name else None
  | _ => None
  end.

(** ** Eval and apply *)

Definition use_env (fn : py_fn) : bool :=
  match fn with
  | fn_host _ use_env => use_env
  | _ => true
  end.

(** The call of [fn] on the unpacked [args_as_list]: a call with the wrong
    number of arguments is a host type error. *)
Definition call_fn `{Host} (ev : evaluator) (ap : applier) (fn : py_fn)
    (args : list value) (env : option loc) : M value :=
  match fn with
  | fn_scheme_eval =>
      match args, env with
      | [expr], Some env => ev expr env
      | _, _ => raise TypeError
      end
  | fn_scheme_apply =>
      match args, env with
      | [procedure; args], Some env => ap procedure args env
      | _, _ => raise TypeError
      end
  | fn_host name _ => host_call name args env
  end.

(** [try: ... except TypeError as exception: raise SchemeError(exception)] *)
Definition except_type_error {A} (m : M A) : M A :=
  fun h =>
    match m h with
    | Some (h', inl TypeError) => Some (h', inl (SchemeError CallError))
    | r => r
    end.

Definition apply_primitive `{Host} (ev : evaluator) (ap : applier) (fn : py_fn)
    (args : value) (env : loc) : M value :=
  do args_as_list <- lift (list_from_pair args) in
  except_type_error
    (call_fn ev ap fn args_as_list (if use_env fn then Some env else None)).

(** The body of [scheme_apply]; [ev] and [ap] are the evaluator and the
    applier that its calls reach. *)
Definition apply_body `{Host} (ev : evaluator) (ap : applier)
    (procedure args : value) (env : loc) : M value :=
  match procedure with
  | PrimitiveProcedure fn => apply_primitive ev ap fn args env
  | LambdaProcedure formals body penv =>
      do frame <- make_call_frame penv formals args in
      ev body frame
  | MuProcedure formals body =>
      do frame <- make_call_frame env formals args in
      ev body frame
  | _ => scheme_raise (NotCallable procedure)
  end.

Definition str_of (x : value) : string :=
  match x with PyStr s => s | _ => "" end.

(** The body of [scheme_eval]. *)
Definition eval_body `{Host} (ev : evaluator) (ap : applier)
    (expr : value) (env : loc) : M value :=
  if is_none expr then scheme_raise UndefinedExpression
  else if scheme_symbolp expr then lookup env (str_of expr)
  else if scheme_atomp expr || scheme_stringp expr || is_okay expr then ret expr
  else if negb (scheme_listp expr) then scheme_raise (MalformedExpression expr)
  else
    do first <- lift (attr_first expr) in
    do rest <- lift (attr_second expr) in
    match logic_form first with
    | Some form =>
        do expr <- form ev rest env in
        ev expr env
    | None =>
        if eq_str first "lambda" then lift (do_lambda_form rest env)
        else if eq_str first "mu" then lift (do_mu_form rest)
        else if eq_str first "define" then do_define_form ev rest env
        else if eq_str first "quote" then lift (do_quote_form rest)
        else if eq_str first "let" then
          do '(expr, env) <- do_let_form ev rest env in
          ev expr env
        else
          do procedure <- ev first env in
          do args <- pair_map (fun operand => ev operand env) rest in
          ap procedure args env
    end.

(** The eval/apply recurrence.  Every call of [scheme_eval] or
    [scheme_apply] takes one unit of the budget. *)
Fixpoint scheme_eval `{Host} (budget : nat) (expr : value) (env : loc)
    : M value :=
  match budget with
  | 0 => diverge
  | S budget =>
      eval_body (scheme_eval budget) (scheme_apply budget) expr env
  end
with scheme_apply `{Host} (budget : nat) (procedure args : value) (env : loc)
    : M value :=
  match budget with
  | 0 => diverge
  | S budget =>
      apply_body (scheme_eval budget) (scheme_apply budget) procedure args env
  end.

(** ** Tail recursion *)

(** One round of the [while True] loop of [scheme_optimized_eval]; [loop]
    stands for [continue] with a new expression and environment.  Operands,
    operators and the forms still go through [scheme_eval]. *)
Definition optimized_body `{Host} (ev : evaluator) (ap : applier)
    (loop : evaluator) (expr : value) (env : loc) : M value :=
  if is_none expr then scheme_raise UndefinedExpression
  else if scheme_symbolp expr then lookup env (str_of expr)
  else if scheme_atomp expr || scheme_stringp expr || is_okay expr then ret expr
  else if negb (scheme_listp expr) then scheme_raise (MalformedExpression expr)
  else
    do first <- lift (attr_first expr) in
    do rest <- lift (attr_second expr) in
    match logic_form first with
    | Some form =>
        do expr <- form ev rest env in
        loop expr env
    | None =>
        if eq_str first "lambda" then lift (do_lambda_form rest env)
        else if eq_str first "mu" then lift (do_mu_form rest)
        else if eq_str first "define" then do_define_form ev rest env
        else if eq_str first "quote" then lift (do_quote_form rest)
        else if eq_str first "let" then
          do '(expr, env) <- do_let_form ev rest env in
          loop expr env
        else
          do procedure <- ev first env in
          do args <- pair_map (fun operand => ev operand env) rest in
          match procedure with
          | PrimitiveProcedure fn => apply_primitive ev ap fn args env
          | LambdaProcedure formals body penv =>
              do frame <- make_call_frame penv formals args in
              loop body frame
          | MuProcedure formals body =>
              do frame <- make_call_frame env formals args in
              loop body frame
          | _ => scheme_raise (NotCallable procedure)
          end
    end.

Fixpoint scheme_optimized_eval `{Host} (budget : nat) (expr : value) (env : loc)
    : M value :=
  match budget with
  | 0 => diverge
  | S budget =>
      optimized_body (scheme_eval budget) (scheme_apply budget)
        (scheme_optimized_eval budget) expr env
  end.

(** A list whose last link is [tail] rather than the empty list. *)
Fixpoint scheme_list_onto (l : list value) (tail : value) : value :=
  match l with
  | [] => tail
  | x :: l => Pair x (scheme_list_onto l tail)
  end.

(** ** Vocabulary of the statements *)

(** The names of a list of symbols, as [check_formals] collects them. *)
Definition names (l : list value) : gset string :=
  list_to_set (str_of <$> l).

(** The bindings that a call adds to a frame: each formal to the argument
    at the same position, a later binding of a name replacing an earlier
    one. *)
Fixpoint bind_list (fs vs : list value) (m : gmap string value)
    : gmap string value :=
  match fs, vs with
  | f :: fs, v :: vs => bind_list fs vs (<[str_of f := v]> m)
  | _, _ => m
  end.

Definition with_bindings (f : gmap string value -> gmap string value)
    (fr : Frame) : Frame :=
  mkFrame (f (bindings fr)) (parent fr).

(** [symbols l]: every element of [l] is a symbol. *)
Abbreviation symbols l := (Forall (fun x => scheme_symbolp x = true) l).

(** [approx m1 m2]: whenever [m1] returns or raises, [m2] does the same
    with the same store. *)
Definition approx {A} (m1 m2 : M A) : Prop :=
  forall h out, m1 h = Some out -> m2 h = Some out.

Definition ev_approx (ev1 ev2 : evaluator) : Prop :=
  forall expr env, approx (ev1 expr env) (ev2 expr env).

Definition ap_approx (ap1 ap2 : applier) : Prop :=
  forall procedure args env,
    approx (ap1 procedure args env) (ap2 procedure args env).

(** [eval_operands ev env es h vs h']: evaluating the expressions [es] from
    left to right in [env], starting from the store [h], returns the values
    [vs] in turn and leaves the store [h']. *)
Inductive eval_operands (ev : evaluator) (env : loc)
    : list value -> store -> list value -> store -> Prop :=
  | eval_operands_nil h : eval_operands ev env [] h [] h
  | eval_operands_cons e es h v h1 vs h2 :
      ev e env h = Some (h1, inr v) ->
      eval_operands ev env es h1 vs h2 ->
      eval_operands ev env (e :: es) h (v :: vs) h2.

Abbreviation all_true vs := (Forall (fun v => scheme_true v = true) vs).
Abbreviation all_false vs := (Forall (fun v => scheme_false v = true) vs).

(** The expression [(name operand ...)]. *)
Definition form (name : string) (operands : list value) : value :=
  Pair (PyStr name) (scheme_list operands).

(** [clauses_fail ev env clauses h h']: every clause of [clauses] is a
    well-formed clause [(test expr ...)] other than an [else] clause, and
    the tests, evaluated in order from the store [h], all give false and
    leave the store [h']. *)
Inductive clauses_fail (ev : evaluator) (env : loc)
    : list value -> store -> store -> Prop :=
  | clauses_fail_nil h : clauses_fail ev env [] h h
  | clauses_fail_cons test body clauses h h1 h2 :
      eq_str test "else" = false ->
      ev test env h = Some (h1, inr (PyBool false)) ->
      clauses_fail ev env clauses h1 h2 ->
      clauses_fail ev env (Pair test (scheme_list body) :: clauses) h h2.

(** [outer_value env h expr v]: [expr] is a number, a boolean or a
    variable, and [v] is its value in the environment [env] of the store
    [h]. *)
Inductive outer_value (env : loc) (h : store) : value -> value -> Prop :=
  | outer_int z : outer_value env h (PyInt z) (PyInt z)
  | outer_bool b : outer_value env h (PyBool b) (PyBool b)
  | outer_variable s v :
      scheme_symbolp (PyStr s) = true ->
      lookup env s h = Some (h, inr v) ->
      outer_value env h (PyStr s) v.

(** The expression [(let ((name expr) ...) body)]. *)
Definition let_form (names exprs : list value) (body : value) : value :=
  form "let"
    [scheme_list (zip_with (fun name expr => scheme_list [name; expr]) names exprs);
     body].

(** [let_values ev env new_env names exprs h vals h']: from the store [h],
    the value expressions [exprs] are evaluated from left to right by [ev]
    in the environment [env] and return the values [vals]; each value is
    defined under its name in the frame [new_env] as soon as it is known,
    and [h'] is the store in the end. *)
Inductive let_values (ev : evaluator) (env new_env : loc)
    : list value -> list value -> store -> list value -> store -> Prop :=
  | let_values_nil h : let_values ev env new_env [] [] h [] h
  | let_values_cons name names expr exprs h v h1 h2 vals h3 :
      ev expr env h = Some (h1, inr v) ->
      define new_env name v h1 = Some (h2, inr tt) ->
      let_values ev env new_env names exprs h2 vals h3 ->
      let_values ev env new_env (name :: names) (expr :: exprs) h (v :: vals) h3.

(** A store is well formed when every parent link points to a frame made
    earlier: frames are made by [Frame(parent)] from a frame that exists. *)
Definition wf_store (h : store) : Prop :=
  forall l fr p, h !! l = Some fr -> parent fr = Some p -> p < l.

(** [store_grows h h']: [h'] has the frames of [h], with the same parents,
    and possibly more frames after them. *)
Definition store_grows (h h' : store) : Prop :=
  length h <= length h'
  /\ forall l, l < length h -> parent <$> (h' !! l) = parent <$> (h !! l).

(** [keeps m]: the computation [m] only makes the store grow. *)
Definition keeps {A} (m : M A) : Prop :=
  forall h h' r, m h = Some (h', r) -> store_grows h h'.

(** The literals: booleans, numbers, Scheme strings and the value
    [okay]. *)
Definition literal (x : value) : bool :=
  scheme_booleanp x || scheme_numberp x || scheme_stringp x || is_okay x.

(** The names that [scheme_eval] treats as special forms. *)
Definition special_form_names : list string :=
  ["and"; "or"; "if"; "cond"; "begin"; "lambda"; "mu"; "define"; "quote"; "let"].

Definition special_form_name (x : value) : bool :=
  existsb (eq_str x) special_form_names.

(** The body that [lambda], [mu] and the shorthand [define] give to a
    procedure: the expression itself when there is one, a [begin] form
    otherwise. *)
Definition procedure_body (exprs : list value) : value :=
  match exprs with
  | [expr] => expr
  | _ => form "begin" exprs
  end.

(** The procedure values. *)
Definition is_procedure (x : value) : bool :=
  match x with
  | PrimitiveProcedure _ | LambdaProcedure _ _ _ | MuProcedure _ _ => true
  | _ => false
  end.

(** ** Sample programs and stores *)

(** A primitive library with no primitive that returns, and an evaluator
    for which the empty list is an atom. *)
Definition no_primitives : Host :=
  {| host_call := fun _ _ _ => raise TypeError; null_is_atom := true |}.

Definition sym (s : string) : value := PyStr s.

(** A store holding one empty global frame. *)
Definition global_only : store := [mkFrame ∅ None].

(** Two frames that bind [x] differently: the global frame binds it to
    1, a child frame to 2. *)
Definition two_scopes : store :=
  [mkFrame {[ "x" := PyInt 1 ]} None; mkFrame {[ "x" := PyInt 2 ]} (Some 0)].

(** [(begin (define (loop n) (if n (loop #f) 42)) (loop #t))]: a
    procedure that calls itself in tail position. *)
Definition tail_loop : value :=
  form "begin"
    [form "define"
       [scheme_list [sym "loop"; sym "n"];
        form "if" [sym "n"; scheme_list [sym "loop"; PyBool false]; PyInt 42]];
     scheme_list [sym "loop"; PyBool true]].

(** A global frame as [create_global_frame] starts it: [eval] and [apply]
    bound to the evaluator itself. *)
Definition eval_apply_only : store :=
  [mkFrame {[ "eval" := PrimitiveProcedure fn_scheme_eval;
              "apply" := PrimitiveProcedure fn_scheme_apply ]} None].

(** * Properties *)

(** ** The monad *)

Lemma bind_inr {A B} (m : M A) (k : A -> M B) h h' a :
  m h = Some (h', inr a) -> bind m k h = k a h'.
Proof. unfold bind. intros ->. reflexivity. Qed.

Lemma bind_inl {A B} (m : M A) (k : A -> M B) h h' e :
  m h = Some (h', inl e) -> bind m k h = Some (h', inl e).
Proof. unfold bind. intros ->. reflexivity. Qed.

Lemma bind_lift_inr {A B} (a : A) (k : A -> M B) h :
  bind (lift (inr a)) k h = k a h.
Proof. reflexivity. Qed.

Lemma bind_ret {A B} (a : A) (k : A -> M B) h : bind (ret a) k h = k a h.
Proof. reflexivity. Qed.

Lemma bind_Some {A B} (m : M A) (k : A -> M B) h out :
  bind m k h = Some out ->
  (exists h' e, m h = Some (h', inl e) /\ out = (h', inl e))
  \/ (exists h' a, m h = Some (h', inr a) /\ k a h' = Some out).
Proof.
  unfold bind. destruct (m h) as [[h' [e|a]]|]; cbn; intros Hb; try discriminate.
  - left. exists h', e. split; [reflexivity | congruence].
  - right. exists h', a. split; [reflexivity | assumption].
Qed.

Lemma approx_refl {A} (m : M A) : approx m m.
Proof. intros h out Hm. exact Hm. Qed.

Lemma approx_trans {A} (m1 m2 m3 : M A) :
  approx m1 m2 -> approx m2 m3 -> approx m1 m3.
Proof. intros H12 H23 h out Hm. apply H23, H12, Hm. Qed.

Lemma approx_diverge {A} (m : M A) : approx diverge m.
Proof. intros h out Hm. discriminate. Qed.

Lemma approx_bind {A B} (m1 m2 : M A) (k1 k2 : A -> M B) :
  approx m1 m2 -> (forall a, approx (k1 a) (k2 a)) ->
  approx (bind m1 k1) (bind m2 k2).
Proof.
  intros Hm Hk h out Hb.
  destruct (bind_Some _ _ _ _ Hb) as [(h' & e & H1 & ->)|(h' & a & H1 & H2)].
  - apply (bind_inl m2 k2). apply Hm, H1.
  - rewrite (bind_inr m2 k2 h h' a); [apply Hk, H2 | apply Hm, H1].
Qed.

Lemma approx_except {A} (m1 m2 : M A) :
  approx m1 m2 -> approx (except_type_error m1) (except_type_error m2).
Proof.
  intros Hm h out. unfold except_type_error.
  destruct (m1 h) as [[h' r]|] eqn:E1; [|discriminate].
  rewrite (Hm _ _ E1). trivial.
Qed.

(** ** Scheme lists *)

Lemma scheme_listp_scheme_list l : scheme_listp (scheme_list l) = true.
Proof. induction l as [|x l IH]; [reflexivity | exact IH]. Qed.

Lemma pair_len_scheme_list l : pair_len (scheme_list l) = inr (length l).
Proof.
  induction l as [|x l IH]; [reflexivity|].
  cbn. rewrite IH. reflexivity.
Qed.

Lemma scheme_list_not_str l s : scheme_list l <> PyStr s.
Proof. destruct l; discriminate. Qed.

Lemma py_len_scheme_list l : py_len (scheme_list l) = inr (length l).
Proof.
  destruct l as [|x l]; [reflexivity|].
  change (py_len (scheme_list (x :: l))) with (pair_len (scheme_list (x :: l))).
  apply pair_len_scheme_list.
Qed.

Lemma pair_items_scheme_list l : pair_items (scheme_list l) = inr l.
Proof.
  induction l as [|x l IH]; [reflexivity|].
  cbn. rewrite IH. reflexivity.
Qed.

Lemma py_iter_scheme_list l : py_iter (scheme_list l) = inr l.
Proof.
  destruct l as [|x l]; [reflexivity|].
  change (py_iter (scheme_list (x :: l))) with (pair_items (scheme_list (x :: l))).
  apply pair_items_scheme_list.
Qed.

Lemma list_from_pair_scheme_list l : list_from_pair (scheme_list l) = inr l.
Proof.
  induction l as [|x l IH]; [reflexivity|].
  cbn. rewrite IH. reflexivity.
Qed.

Lemma pair_getitem_scheme_list x l k :
  pair_getitem x (scheme_list l) k =
  match (x :: l) !! k with Some y => inr y | None => inl IndexError end.
Proof.
  revert x l. induction k as [|k IH]; intros x l; [done|].
  destruct l as [|y l]; [done|]. cbn. apply IH.
Qed.

Lemma py_getitem_scheme_list (l : list value) k :
  py_getitem (scheme_list l) k =
  match l !! k with Some y => inr y | None => inl IndexError end.
Proof.
  destruct l as [|x l]; [reflexivity|]. apply pair_getitem_scheme_list.
Qed.

Lemma py_getitem_middle (done : list value) x rest :
  py_getitem (scheme_list (done ++ x :: rest)) (length done) = inr x.
Proof.
  rewrite py_getitem_scheme_list, list_lookup_middle; reflexivity.
Qed.

Lemma scheme_listp_items x :
  scheme_listp x = true -> exists l, x = scheme_list l.
Proof.
  induction x; try discriminate.
  - intros _. exists []. reflexivity.
  - cbn. intros Hl. destruct (IHx2 Hl) as [l ->]. exists (x1 :: l). reflexivity.
Qed.

Lemma check_form_scheme_list l min max :
  check_form (scheme_list l) min max =
  if (length l <? min)%nat then inl (SchemeError TooFewOperands)
  else match max with
       | Some max =>
           if (max <? length l)%nat then inl (SchemeError TooManyOperands)
           else inr tt
       | None => inr tt
       end.
Proof.
  unfold check_form. rewrite scheme_listp_scheme_list, py_len_scheme_list.
  reflexivity.
Qed.

(** ** Quotation *)

Lemma scheme_atomp_pair `{Host} a d : scheme_atomp (Pair a d) = false.
Proof. unfold scheme_atomp. cbn. apply andb_false_r. Qed.

Lemma eval_body_quote `{Host} ev ap v env h :
  eval_body ev ap (quote v) env h = Some (h, inr v).
Proof.
  unfold eval_body, quote. cbn [is_none scheme_symbolp].
  rewrite scheme_atomp_pair. reflexivity.
Qed.

Lemma optimized_body_quote `{Host} ev ap loop v env h :
  optimized_body ev ap loop (quote v) env h = Some (h, inr v).
Proof.
  unfold optimized_body, quote. cbn [is_none scheme_symbolp].
  rewrite scheme_atomp_pair. reflexivity.
Qed.

Lemma scheme_eval_quote `{Host} budget v env h :
  scheme_eval (S budget) (quote v) env h = Some (h, inr v).
Proof. apply eval_body_quote. Qed.

(** C9: for every value [v], every environment and every store, the
    expression [(quote v)] built by [quote] evaluates to exactly [v] under
    both evaluators: the result does not depend on the environment or on
    what the store binds, no error is raised and the store is left as it
    was, whatever [v] is (an unbound symbol, a list headed by the name of a
    special form, ...). *)
Theorem quote_roundtrip `{Host} (budget : nat) (v : value) (env : loc) (h : store) :
  scheme_eval (S budget) (quote v) env h = Some (h, inr v)
  /\ scheme_optimized_eval (S budget) (quote v) env h = Some (h, inr v).
Proof.
  split; [apply eval_body_quote | apply optimized_body_quote].
Qed.

(** ** Formal parameter lists *)

Lemma symbol_is_str x : scheme_symbolp x = true -> x = PyStr (str_of x).
Proof. destruct x; try discriminate. reflexivity. Qed.

Lemma elem_of_names (l : list value) s :
  symbols l ->
  s ∈ names l <-> PyStr s ∈ l.
Proof.
  intros Hl. unfold names. rewrite elem_of_list_to_set, list_elem_of_fmap.
  split.
  - intros (x & -> & Hx). rewrite Forall_forall in Hl.
    rewrite <- (symbol_is_str x); [assumption | apply Hl, Hx].
  - intros Hs. exists (PyStr s). split; [reflexivity | assumption].
Qed.

Lemma in_set_symbol x formals_set :
  scheme_symbolp x = true ->
  in_set x formals_set = inr (bool_decide (str_of x ∈ formals_set)).
Proof. destruct x; try discriminate. reflexivity. Qed.

Lemma symbol_hashable x : scheme_symbolp x = true -> hashable x = true.
Proof. destruct x; try discriminate; reflexivity. Qed.

Lemma in_set_unhashable x formals_set :
  hashable x = false -> in_set x formals_set = inl TypeError.
Proof. unfold in_set. intros ->. reflexivity. Qed.

Lemma in_set_names (l : list value) x :
  symbols l ->
  in_set x (names l) = inr true <-> x ∈ l.
Proof.
  intros Hl. split.
  - destruct x; cbn; try discriminate.
    intros [= Hs]. apply bool_decide_eq_true in Hs. apply elem_of_names; assumption.
  - intros Hx. assert (Hs : scheme_symbolp x = true).
    { rewrite Forall_forall in Hl. apply Hl, Hx. }
    rewrite (in_set_symbol x _ Hs). f_equal.
    apply bool_decide_eq_true. apply elem_of_names; [assumption|].
    rewrite <- (symbol_is_str x Hs). assumption.
Qed.

(** A hashable object that is not among the names of the set is not in
    it. *)
Lemma in_set_hashable (l : list value) x :
  symbols l -> hashable x = true -> x ∉ l -> in_set x (names l) = inr false.
Proof.
  intros Hl Hh Hx. destruct (in_set x (names l)) as [e|[|]] eqn:Hin.
  - unfold in_set in Hin. rewrite Hh in Hin. destruct x; discriminate.
  - apply in_set_names in Hin; [contradiction | assumption].
  - reflexivity.
Qed.

Lemma set_add_names (l : list value) x :
  scheme_symbolp x = true -> set_add x (names l) = names (l ++ [x]).
Proof.
  intros Hx. rewrite (symbol_is_str x Hx). cbn [set_add str_of].
  unfold names. rewrite fmap_app, list_to_set_app_L. cbn.
  rewrite (right_id_L ∅ (∪)). apply (comm_L (∪)).
Qed.

(** The loop of [check_formals] after a prefix of distinct symbols. *)
Lemma check_formals_from_prefix (done pre : list value) (rest : value) :
  symbols (done ++ pre) ->
  NoDup (done ++ pre) ->
  check_formals_from (names done) (scheme_list_onto pre rest)
  = check_formals_from (names (done ++ pre)) rest.
Proof.
  revert done. induction pre as [|x pre IH]; intros done Hsym Hnd.
  - rewrite app_nil_r. reflexivity.
  - assert (Hdone : symbols done)
      by (apply Forall_app in Hsym; tauto).
    assert (Hx : scheme_symbolp x = true).
    { apply Forall_app in Hsym as [_ Hsym]. inversion Hsym; assumption. }
    cbn [scheme_list_onto check_formals_from].
    rewrite (in_set_hashable done x Hdone).
    + cbn [rbind]. rewrite Hx. cbn [negb]. rewrite set_add_names by assumption.
      rewrite (IH (done ++ [x])); rewrite <- app_assoc; [reflexivity | | ];
        assumption.
    + apply symbol_hashable, Hx.
    + apply NoDup_app in Hnd as (_ & Hnd & _).
      intros Hin. apply (Hnd x Hin). left.
Qed.

Lemma scheme_list_onto_nil l : scheme_list_onto l Nil = scheme_list l.
Proof. induction l as [|x l IH]; [reflexivity | cbn; rewrite IH; reflexivity]. Qed.

Lemma scheme_list_onto_app pre l :
  scheme_list (pre ++ l) = scheme_list_onto pre (scheme_list l).
Proof. induction pre as [|x pre IH]; [reflexivity | cbn; rewrite IH; reflexivity]. Qed.

(** C8, on the elements that the host can hash: on a Scheme list,
    [check_formals] succeeds silently when all the elements are distinct
    symbols; otherwise it stops at the first element, from the left, that
    repeats an earlier one or is not a symbol, and fails with
    [DuplicateFormal] in the first case and, when the element is hashable,
    with [InvalidFormal] in the second, reporting that element.  In
    particular [(a b b)] fails with [DuplicateFormal] and [(a 1)] with
    [InvalidFormal].  C8 does not hold of an element that is a list: the
    membership test comes before the symbol test and raises the type error
    of the host, which is no [SchemeError]; so does [(a (b))], and the
    expression [(lambda (a (b)) a)] with it, under both evaluators. *)
Theorem check_formals_first_violation (pre : list value) :
  symbols pre ->
  NoDup pre ->
  check_formals (scheme_list pre) = inr tt
  /\ (forall x post, x ∈ pre ->
        check_formals (scheme_list (pre ++ x :: post))
        = inl (SchemeError (DuplicateFormal x)))
  /\ (forall x post, scheme_symbolp x = false -> hashable x = true ->
        check_formals (scheme_list (pre ++ x :: post))
        = inl (SchemeError (InvalidFormal x)))
  /\ (forall x post, hashable x = false ->
        scheme_symbolp x = false
        /\ check_formals (scheme_list (pre ++ x :: post)) = inl TypeError)
  /\ check_formals (scheme_list [sym "a"; sym "b"; sym "b"])
     = inl (SchemeError (DuplicateFormal (sym "b")))
  /\ check_formals (scheme_list [sym "a"; PyInt 1])
     = inl (SchemeError (InvalidFormal (PyInt 1)))
  /\ check_formals (scheme_list [sym "a"; scheme_list [sym "b"]])
     = inl TypeError
  /\ (forall budget env h,
        let expr := form "lambda" [scheme_list [sym "a"; scheme_list [sym "b"]];
                                   sym "a"] in
        scheme_eval (H := no_primitives) (S budget) expr env h
        = Some (h, inl TypeError)
        /\ scheme_optimized_eval (H := no_primitives) (S budget) expr env h
           = Some (h, inl TypeError)).
Proof.
  intros Hsym Hnd.
  assert (Hgo : forall rest,
    check_formals (scheme_list_onto pre rest)
    = check_formals_from (names pre) rest).
  { intros rest. unfold check_formals.
    change (∅ : gset string) with (names []).
    apply (check_formals_from_prefix [] pre rest); assumption. }
  split; [|split; [|split; [|split; [|split; [|split; [|split]]]]]].
  - rewrite <- scheme_list_onto_nil, Hgo. reflexivity.
  - intros x post Hx. rewrite scheme_list_onto_app, Hgo.
    cbn [scheme_list check_formals_from].
    apply in_set_names in Hx; [|assumption]. rewrite Hx. reflexivity.
  - intros x post Hx Hh. rewrite scheme_list_onto_app, Hgo.
    cbn [scheme_list check_formals_from].
    rewrite (in_set_hashable pre x Hsym Hh).
    + cbn [rbind]. rewrite Hx. reflexivity.
    + intros Hin. rewrite Forall_forall in Hsym.
      rewrite (Hsym x Hin) in Hx. discriminate.
  - intros x post Hh. split.
    + destruct (scheme_symbolp x) eqn:Hx; [|reflexivity].
      apply symbol_hashable in Hx. congruence.
    + rewrite scheme_list_onto_app, Hgo.
      cbn [scheme_list check_formals_from].
      rewrite (in_set_unhashable x _ Hh). reflexivity.
  - vm_compute. reflexivity.
  - vm_compute. reflexivity.
  - vm_compute. reflexivity.
  - intros budget env h. split; reflexivity.
Qed.

Lemma check_formals_first_violation_witness :
  check_formals (scheme_list [sym "a"; sym "b"; sym "c"]) = inr tt
  /\ check_formals (scheme_list ([sym "a"; sym "b"] ++ sym "a" :: [sym "d"]))
     = inl (SchemeError (DuplicateFormal (sym "a")))
  /\ check_formals (scheme_list ([sym "a"; sym "b"] ++ Nil :: [sym "d"]))
     = inl (SchemeError (InvalidFormal Nil))
  /\ check_formals
       (scheme_list ([sym "a"; sym "b"] ++ scheme_list [sym "c"] :: [sym "d"]))
     = inl TypeError.
Proof.
  split; [|split; [|split]].
  - apply (check_formals_first_violation [sym "a"; sym "b"; sym "c"]).
    + repeat constructor.
    + apply (bool_decide_unpack _). vm_compute. exact I.
  - apply (check_formals_first_violation [sym "a"; sym "b"]).
    + repeat constructor.
    + apply (bool_decide_unpack _). vm_compute. exact I.
    + apply (bool_decide_unpack _). vm_compute. exact I.
  - apply (check_formals_first_violation [sym "a"; sym "b"]).
    + repeat constructor.
    + apply (bool_decide_unpack _). vm_compute. exact I.
    + reflexivity.
    + reflexivity.
  - refine (proj2 (proj1 (proj2 (proj2 (proj2
      (check_formals_first_violation [sym "a"; sym "b"] _ _))))
      (scheme_list [sym "c"]) [sym "d"] _)).
    + repeat constructor.
    + apply (bool_decide_unpack _). vm_compute. exact I.
    + reflexivity.
Defined.

(** ** Frames *)

Lemma define_symbol frame f v h :
  scheme_symbolp f = true ->
  define frame f v h = Some (alter (set_binding (str_of f) v) frame h, inr tt).
Proof.
  intros Hf. destruct f; try discriminate. unfold define. rewrite Hf.
  reflexivity.
Qed.

Lemma define_not_symbol frame f v h :
  scheme_symbolp f = false ->
  define frame f v h = Some (h, inl (SchemeError (InvalidBindingTarget f))).
Proof.
  intros Hf. destruct f; try reflexivity. unfold define. rewrite Hf.
  reflexivity.
Qed.

(** [define] touches the bindings of one frame and nothing else. *)
Lemma define_parent frame f v h h' r l :
  define frame f v h = Some (h', r) ->
  parent <$> (h' !! l) = parent <$> (h !! l).
Proof.
  destruct (scheme_symbolp f) eqn:Hf.
  - rewrite define_symbol by assumption. intros [= <- _].
    rewrite list_lookup_alter. case_decide; [subst l|reflexivity].
    destruct (h !! frame); reflexivity.
  - rewrite define_not_symbol by assumption. intros [= <- _]. reflexivity.
Qed.

Lemma bind_formals_parent frame formals vals h h' r l :
  bind_formals frame formals vals h = Some (h', r) ->
  parent <$> (h' !! l) = parent <$> (h !! l).
Proof.
  revert vals h. induction formals; intros vals h; destruct vals; cbn;
    try (intros [= <- _]; reflexivity).
  intros Hb. apply bind_Some in Hb as [(h1 & e & Hd & [= -> _])|(h1 & [] & Hd & Hb)].
  - apply (define_parent _ _ _ _ _ _ _ Hd).
  - rewrite (IHformals2 _ _ Hb). apply (define_parent _ _ _ _ _ _ _ Hd).
Qed.

Lemma bind_formals_symbols frame fs vs h :
  symbols fs -> length fs = length vs ->
  bind_formals frame (scheme_list fs) (scheme_list vs) h
  = Some (alter (with_bindings (bind_list fs vs)) frame h, inr tt).
Proof.
  intros Hsym. revert vs h.
  induction Hsym as [|f fs Hf Hsym IH]; intros [|v vs] h Hlen; try discriminate.
  - cbn. rewrite list_alter_id; [reflexivity|]. intros []; reflexivity.
  - cbn [scheme_list bind_formals].
    rewrite (bind_inr _ _ _ _ _ (define_symbol frame f v h Hf)).
    rewrite IH by (cbn in Hlen; lia).
    rewrite list_alter_alter_eq. reflexivity.
Qed.

Lemma bind_formals_mismatch frame fs vs h :
  symbols fs -> length fs <> length vs ->
  exists h',
    bind_formals frame (scheme_list fs) (scheme_list vs) h
    = Some (h', inl (SchemeError ArityMismatch)).
Proof.
  intros Hsym. revert vs h.
  induction Hsym as [|f fs Hf Hsym IH]; intros [|v vs] h Hlen;
    try (exists h; reflexivity).
  - contradiction.
  - cbn [scheme_list bind_formals].
    rewrite (bind_inr _ _ _ _ _ (define_symbol frame f v h Hf)).
    apply IH. cbn in Hlen. lia.
Qed.

(** The loop succeeds only on two well-formed lists of the same length. *)
Lemma bind_formals_inr frame formals vals h h' u :
  bind_formals frame formals vals h = Some (h', inr u) ->
  scheme_listp formals = true /\ scheme_listp vals = true
  /\ pair_len formals = pair_len vals.
Proof.
  revert vals h. induction formals; intros vals h; destruct vals; cbn;
    try discriminate; try (intros _; repeat split; reflexivity).
  intros Hb. apply bind_Some in Hb as [(h1 & e & _ & [=])|(h1 & [] & _ & Hb)].
  destruct (IHformals2 _ _ Hb) as (H1 & H2 & H3).
  rewrite H3. repeat split; assumption.
Qed.

Lemma make_call_frame_symbols self fs vs h :
  symbols fs -> length fs = length vs ->
  make_call_frame self (scheme_list fs) (scheme_list vs) h
  = Some (h ++ [mkFrame (bind_list fs vs ∅) (Some self)], inr (length h)).
Proof.
  intros Hsym Hlen. unfold make_call_frame.
  rewrite (bind_inr _ _ h (h ++ [mkFrame ∅ (Some self)]) (length h)) by reflexivity.
  rewrite (bind_inr _ _ _ _ tt (bind_formals_symbols _ fs vs _ Hsym Hlen)).
  unfold ret. rewrite alter_app_r_alt by lia. rewrite Nat.sub_diag.
  reflexivity.
Qed.

Lemma make_call_frame_inr self formals vals h h' frame :
  make_call_frame self formals vals h = Some (h', inr frame) ->
  frame = length h /\ parent <$> (h' !! frame) = Some (Some self)
  /\ scheme_listp formals = true /\ scheme_listp vals = true
  /\ pair_len formals = pair_len vals.
Proof.
  unfold make_call_frame. intros Hm.
  apply bind_Some in Hm as [(h1 & e & [=] & _)|(h1 & fr & [= <- <-] & Hm)].
  apply bind_Some in Hm as [(h2 & e & _ & [=])|(h2 & [] & Hb & [= <- <-])].
  split; [reflexivity|]. split.
  - rewrite (bind_formals_parent _ _ _ _ _ _ (length h) Hb).
    rewrite list_lookup_middle; reflexivity.
  - apply (bind_formals_inr _ _ _ _ _ _ Hb).
Qed.

(** ** Looking names up *)

Lemma bind_list_notin fs vs m s :
  symbols fs -> PyStr s ∉ fs -> bind_list fs vs m !! s = m !! s.
Proof.
  intros Hsym. revert vs m.
  induction Hsym as [|f fs Hf Hsym IH]; intros [|v vs] m Hs; try reflexivity.
  cbn. rewrite IH by (intros Hin; apply Hs; right; assumption).
  apply lookup_insert_ne. intros Heq. apply Hs.
  rewrite (symbol_is_str f Hf), Heq. left.
Qed.


(** A walk that finds its answer in a store finds the same answer in any
    store that keeps the frames of the first one, with any larger budget. *)
Lemma lookup_walk_extend budget budget' (h h' : store) self symbol r :
  lookup_walk budget h self symbol = Some r ->
  budget <= budget' ->
  (forall l fr, h !! l = Some fr -> h' !! l = Some fr) ->
  lookup_walk budget' h' self symbol = Some r.
Proof.
  intros Hw Hle Hext. revert budget' self Hw Hle.
  induction budget as [|budget IH]; intros budget' [l|] Hw Hle;
    try (destruct budget'; exact Hw); try discriminate.
  destruct budget' as [|budget']; [lia|]. cbn in Hw |- *.
  destruct (h !! l) as [fr|] eqn:Hl; [|discriminate].
  rewrite (Hext _ _ Hl).
  destruct (bindings fr !! symbol); [exact Hw|].
  apply IH; [exact Hw | lia].
Qed.

Lemma lookup_inv self symbol h out :
  lookup self symbol h = Some out ->
  exists r, out = (h, r) /\ lookup_walk (length h) h (Some self) symbol = Some r.
Proof.
  unfold lookup. destruct (lookup_walk _ _ _ _) as [r|]; [|discriminate].
  intros [= <-]. exists r. split; reflexivity.
Qed.

(** Looking up from a frame of [h] is not affected by frames added after
    it, nor by what they bind. *)
Lemma lookup_extend self symbol (h h' : store) r :
  lookup self symbol h = Some (h, r) ->
  (forall l fr, h !! l = Some fr -> h' !! l = Some fr) ->
  lookup self symbol h' = Some (h', r).
Proof.
  intros Hl Hext. apply lookup_inv in Hl as (r' & [= <-] & Hw).
  unfold lookup.
  rewrite (lookup_walk_extend (length h) (length h') h h' _ _ _ Hw); [reflexivity| |assumption].
  destruct (decide (length h <= length h')) as [|Hlt]; [assumption|].
  destruct h as [|fr h0] using rev_ind; [cbn; lia|].
  specialize (Hext (length h0) fr (list_lookup_middle _ _ _ _ eq_refl)).
  apply lookup_lt_Some in Hext. rewrite length_app in Hlt |- *. cbn in *. lia.
Qed.

(** Looking up from the newest frame: its own bindings first, then the
    chain of its parent. *)
Lemma lookup_newest (h : store) fr symbol :
  lookup (length h) symbol (h ++ [fr])
  = match bindings fr !! symbol with
    | Some v => Some (h ++ [fr], inr v)
    | None =>
        match lookup_walk (length h) (h ++ [fr]) (parent fr) symbol with
        | Some r => Some (h ++ [fr], r)
        | None => None
        end
    end.
Proof.
  unfold lookup. rewrite length_app. cbn [length]. rewrite Nat.add_1_r.
  cbn [lookup_walk]. rewrite list_lookup_middle by reflexivity.
  destruct (bindings fr !! symbol); reflexivity.
Qed.

Lemma lookup_newest_parent (h : store) fr symbol p r :
  bindings fr !! symbol = None -> parent fr = Some p ->
  lookup p symbol h = Some (h, r) ->
  lookup (length h) symbol (h ++ [fr]) = Some (h ++ [fr], r).
Proof.
  intros Hb Hp Hl. rewrite lookup_newest, Hb, Hp.
  apply lookup_inv in Hl as (r' & [= <-] & Hw).
  rewrite (lookup_walk_extend _ (length h) h (h ++ [fr]) _ _ _ Hw);
    [reflexivity | lia |].
  intros l fr' Hl. apply lookup_app_l_Some, Hl.
Qed.

(** ** Call frames *)




(** ** Lexical and dynamic scope *)

Lemma eval_body_symbol `{Host} ev ap s env h :
  scheme_symbolp (PyStr s) = true ->
  eval_body ev ap (PyStr s) env h = lookup env s h.
Proof. intros Hs. unfold eval_body. cbn [is_none]. rewrite Hs. reflexivity. Qed.

(** C2: applying a [LambdaProcedure] builds the call frame as a child of
    the frame the procedure captured and evaluates the body there; applying
    a [MuProcedure] builds it as a child of the frame of the caller.  The
    call frame is a new frame whose parent is that frame.  Consequently,
    when the body is a variable [x] that is not a formal and that the
    captured frame and the calling frame bind to different values, the
    lambda returns the value bound in the captured frame and the mu the one
    bound in the calling frame: the two results differ. *)
Theorem apply_scoping `{Host} (budget : nat) (formals body args : value)
    (penv env : loc) (h : store) :
  scheme_apply (S budget) (LambdaProcedure formals body penv) args env h
  = (do frame <- make_call_frame penv formals args in
     scheme_eval budget body frame) h
  /\ scheme_apply (S budget) (MuProcedure formals body) args env h
     = (do frame <- make_call_frame env formals args in
        scheme_eval budget body frame) h
  /\ (forall self h' frame,
        make_call_frame self formals args h = Some (h', inr frame) ->
        frame = length h /\ parent <$> (h' !! frame) = Some (Some self))
  /\ (forall fs vs x v1 v2,
        symbols fs -> length fs = length vs ->
        scheme_symbolp (PyStr x) = true -> PyStr x ∉ fs ->
        lookup penv x h = Some (h, inr v1) ->
        lookup env x h = Some (h, inr v2) ->
        v1 <> v2 ->
        exists h1 h2 r1 r2,
          scheme_apply (S (S budget))
            (LambdaProcedure (scheme_list fs) (PyStr x) penv)
            (scheme_list vs) env h = Some (h1, inr r1)
          /\ scheme_apply (S (S budget))
               (MuProcedure (scheme_list fs) (PyStr x))
               (scheme_list vs) env h = Some (h2, inr r2)
          /\ r1 = v1 /\ r2 = v2 /\ r1 <> r2).
Proof.
  split; [reflexivity|]. split; [reflexivity|]. split.
  - intros self h' frame Hm.
    destruct (make_call_frame_inr _ _ _ _ _ _ Hm) as (H1 & H2 & _).
    split; assumption.
  - intros fs vs x v1 v2 Hsym Hlen Hx Hnotin Hl1 Hl2 Hneq.
    assert (Hcall : forall self v,
      lookup self x h = Some (h, inr v) ->
      (do frame <- make_call_frame self (scheme_list fs) (scheme_list vs) in
       scheme_eval (S budget) (PyStr x) frame) h
      = Some (h ++ [mkFrame (bind_list fs vs ∅) (Some self)], inr v)).
    { intros self v Hl.
      rewrite (bind_inr _ _ _ _ _ (make_call_frame_symbols self fs vs h Hsym Hlen)).
      cbn [scheme_eval]. rewrite eval_body_symbol by assumption.
      apply (lookup_newest_parent h _ x self); [|reflexivity|assumption].
      cbn [bindings]. rewrite bind_list_notin by assumption. apply lookup_empty. }
    exists (h ++ [mkFrame (bind_list fs vs ∅) (Some penv)]),
           (h ++ [mkFrame (bind_list fs vs ∅) (Some env)]), v1, v2.
    split; [apply (Hcall penv v1 Hl1)|].
    split; [apply (Hcall env v2 Hl2)|]. auto.
Qed.

Lemma apply_scoping_witness :
  exists h1 h2 r1 r2,
    scheme_apply (H := no_primitives) 2
      (LambdaProcedure (scheme_list [sym "a"]) (sym "x") 0)
      (scheme_list [PyInt 7]) 1 two_scopes = Some (h1, inr r1)
    /\ scheme_apply (H := no_primitives) 2
         (MuProcedure (scheme_list [sym "a"]) (sym "x"))
         (scheme_list [PyInt 7]) 1 two_scopes = Some (h2, inr r2)
    /\ r1 = PyInt 1 /\ r2 = PyInt 2 /\ r1 <> r2.
Proof.
  refine (proj2 (proj2 (proj2 (apply_scoping (H := no_primitives) 0
            Nil Nil Nil 0 1 two_scopes)))
            [sym "a"] [PyInt 7] "x" (PyInt 1) (PyInt 2) _ eq_refl eq_refl _ _ _ _).
  - repeat constructor.
  - apply (bool_decide_unpack _). vm_compute. exact I.
  - vm_compute. reflexivity.
  - vm_compute. reflexivity.
  - discriminate.
Defined.

(** ** The evaluator is monotone in its budget *)

Ltac approx_step :=
  match goal with
  | |- approx ?m ?m => apply approx_refl
  | H : ev_approx ?ev1 ?ev2 |- approx (?ev1 _ _) (?ev2 _ _) => apply H
  | H : ap_approx ?ap1 ?ap2 |- approx (?ap1 _ _ _) (?ap2 _ _ _) => apply H
  | |- approx (bind _ _) (bind _ _) => apply approx_bind; [|intros ?]
  | |- approx (except_type_error _) (except_type_error _) => apply approx_except
  | |- approx (let '(_, _) := ?x in _) (let '(_, _) := ?x in _) => destruct x
  | |- approx (if ?b then _ else _) (if ?b then _ else _) => destruct b
  | |- approx (match ?x with _ => _ end) (match ?x with _ => _ end) => destruct x
  end.

Ltac approx_auto := repeat approx_step.

Section Monotone.
Context `{Host}.
Variables ev1 ev2 : evaluator.
Hypothesis Hev : ev_approx ev1 ev2.

Lemma pair_map_approx (fn1 fn2 : value -> M value) p :
  (forall x, approx (fn1 x) (fn2 x)) ->
  approx (pair_map fn1 p) (pair_map fn2 p).
Proof.
  intros Hfn. induction p; cbn; try apply approx_refl.
  apply approx_bind; [apply Hfn|]. intros mapped.
  destruct p2; try apply approx_refl;
    (apply approx_bind; [exact IHp2 | intros; apply approx_refl]).
Qed.

Lemma let_bindings_approx env new_env pairs :
  approx (let_bindings ev1 env new_env pairs)
         (let_bindings ev2 env new_env pairs).
Proof. induction pairs; cbn; approx_auto. assumption. Qed.

Lemma eval_range_approx exprs env i count :
  approx (eval_range ev1 exprs env i count)
         (eval_range ev2 exprs env i count).
Proof. revert i. induction count; intros i; cbn; approx_auto. apply IHcount. Qed.

Lemma and_loop_approx vals env i count test :
  approx (and_loop ev1 vals env i count test)
         (and_loop ev2 vals env i count test).
Proof.
  revert i test. induction count; intros i test; cbn; approx_auto.
  apply IHcount.
Qed.

Lemma or_loop_approx vals env i count last :
  approx (or_loop ev1 vals env i count last)
         (or_loop ev2 vals env i count last).
Proof. revert i. induction count; intros i; cbn; approx_auto. apply IHcount. Qed.

Lemma cond_loop_approx env num_clauses i clauses :
  approx (cond_loop ev1 env num_clauses i clauses)
         (cond_loop ev2 env num_clauses i clauses).
Proof. revert i. induction clauses; intros i; cbn; approx_auto. apply IHclauses. Qed.

Lemma begin_loop_approx env vals returned :
  approx (begin_loop ev1 env vals returned)
         (begin_loop ev2 env vals returned).
Proof.
  revert returned. induction vals; intros returned; cbn; approx_auto.
  apply IHvals2.
Qed.

Lemma do_define_form_approx vals env :
  approx (do_define_form ev1 vals env) (do_define_form ev2 vals env).
Proof. unfold do_define_form. approx_auto. Qed.

Lemma do_let_form_approx vals env :
  approx (do_let_form ev1 vals env) (do_let_form ev2 vals env).
Proof.
  unfold do_let_form. approx_auto.
  - apply let_bindings_approx.
  - apply eval_range_approx.
Qed.

Lemma logic_form_approx first form1 vals env :
  logic_form first = Some form1 ->
  approx (form1 ev1 vals env) (form1 ev2 vals env).
Proof.
  destruct first; try discriminate. cbn [logic_form].
  destruct (scheme_symbolp (PyStr s)); [|discriminate]. unfold LOGIC_FORMS.
  repeat (destruct (String.eqb s _); [intros [= <-]|]); try discriminate.
  - unfold do_and_form. approx_auto. apply and_loop_approx.
  - unfold do_or_form. approx_auto. apply or_loop_approx.
  - unfold do_if_form. approx_auto.
  - unfold do_cond_form. approx_auto. apply cond_loop_approx.
  - unfold do_begin_form. approx_auto. apply begin_loop_approx.
Qed.

Variables ap1 ap2 : applier.
Hypothesis Hap : ap_approx ap1 ap2.

Lemma apply_primitive_approx fn args env :
  approx (apply_primitive ev1 ap1 fn args env)
         (apply_primitive ev2 ap2 fn args env).
Proof.
  unfold apply_primitive. apply approx_bind; [apply approx_refl|].
  intros args_as_list. apply approx_except.
  unfold call_fn. destruct fn; approx_auto.
Qed.

Lemma apply_body_approx procedure args env :
  approx (apply_body ev1 ap1 procedure args env)
         (apply_body ev2 ap2 procedure args env).
Proof.
  unfold apply_body. destruct procedure; approx_auto.
  apply apply_primitive_approx.
Qed.

Lemma eval_body_approx expr env :
  approx (eval_body ev1 ap1 expr env) (eval_body ev2 ap2 expr env).
Proof.
  unfold eval_body.
  repeat match goal with
         | |- approx (if ?b then _ else _) (if ?b then _ else _) => destruct b
         end; try apply approx_refl.
  apply approx_bind; [apply approx_refl|]. intros first.
  apply approx_bind; [apply approx_refl|]. intros rest.
  destruct (logic_form first) as [form|] eqn:Hform.
  - apply approx_bind; [apply (logic_form_approx first); assumption|].
    intros expr'. apply Hev.
  - repeat match goal with
           | |- approx (if ?b then _ else _) (if ?b then _ else _) => destruct b
           end; try apply approx_refl.
    + apply do_define_form_approx.
    + apply approx_bind; [apply do_let_form_approx|].
      intros [expr' env']. apply Hev.
    + apply approx_bind; [apply Hev|]. intros procedure.
      apply approx_bind; [|intros args; apply Hap].
      apply pair_map_approx. intros operand. apply Hev.
Qed.
End Monotone.

Lemma scheme_eval_step_approx `{Host} budget :
  ev_approx (scheme_eval budget) (scheme_eval (S budget))
  /\ ap_approx (scheme_apply budget) (scheme_apply (S budget)).
Proof.
  induction budget as [|budget [IHev IHap]].
  - split; intros ? ?; [|intros ?]; apply approx_diverge.
  - split.
    + intros expr env. apply eval_body_approx; assumption.
    + intros procedure args env. apply apply_body_approx; assumption.
Qed.

Lemma scheme_eval_mono `{Host} budget budget' :
  budget <= budget' ->
  ev_approx (scheme_eval budget) (scheme_eval budget')
  /\ ap_approx (scheme_apply budget) (scheme_apply budget').
Proof.
  induction 1 as [|budget' Hle [IHev IHap]].
  - split; intros ? ?; [|intros ?]; apply approx_refl.
  - destruct (scheme_eval_step_approx budget') as [Hev Hap]. split.
    + intros expr env. eapply approx_trans; [apply IHev | apply Hev].
    + intros procedure args env. eapply approx_trans; [apply IHap | apply Hap].
Qed.

(** ** The tail-call preserving evaluator *)

(** C1: whenever [scheme_eval] returns a value or raises, from a given
    expression, environment and store, [scheme_optimized_eval] returns the
    same value or raises the same exception, and leaves the same store. *)
Theorem optimized_eval_agrees `{Host} (budget : nat) (expr : value) (env : loc)
    (h : store) (out : store * result value) :
  scheme_eval budget expr env h = Some out ->
  scheme_optimized_eval budget expr env h = Some out.
Proof.
  revert expr env h out.
  change (ev_approx (scheme_eval budget) (scheme_optimized_eval budget)).
  induction budget as [|budget IH]; intros expr env; [apply approx_diverge|].
  cbn [scheme_eval scheme_optimized_eval]. unfold eval_body, optimized_body.
  repeat match goal with
         | |- approx (if ?b then _ else _) (if ?b then _ else _) => destruct b
         end; try apply approx_refl.
  apply approx_bind; [apply approx_refl|]. intros first.
  apply approx_bind; [apply approx_refl|]. intros rest.
  destruct (logic_form first) as [form|].
  - apply approx_bind; [apply approx_refl|]. intros expr'. apply IH.
  - repeat match goal with
           | |- approx (if ?b then _ else _) (if ?b then _ else _) => destruct b
           end; try apply approx_refl.
    + apply approx_bind; [apply approx_refl|]. intros [expr' env']. apply IH.
    + apply approx_bind; [apply approx_refl|]. intros procedure.
      apply approx_bind; [apply approx_refl|]. intros args.
      destruct budget as [|budget]; [apply approx_diverge|].
      destruct (scheme_eval_step_approx budget) as [Hev Hap].
      cbn [scheme_apply]. unfold apply_body.
      destruct procedure; try apply approx_refl.
      * apply apply_primitive_approx; assumption.
      * apply approx_bind; [apply approx_refl|]. intros frame.
        eapply approx_trans; [apply Hev | apply IH].
      * apply approx_bind; [apply approx_refl|]. intros frame.
        eapply approx_trans; [apply Hev | apply IH].
Qed.

Lemma optimized_eval_agrees_witness :
  exists h',
    scheme_optimized_eval (H := no_primitives) 12 tail_loop 0 global_only
    = Some (h', inr (PyInt 42)).
Proof.
  eexists. apply optimized_eval_agrees. vm_compute. reflexivity.
Defined.

(** ** Evaluating forms *)

Lemma eval_atom `{Host} budget expr env h :
  scheme_booleanp expr || scheme_numberp expr = true ->
  scheme_eval (S budget) expr env h = Some (h, inr expr).
Proof.
  intros Ha. cbn [scheme_eval]. unfold eval_body, scheme_atomp.
  destruct expr; try discriminate; reflexivity.
Qed.

(** A logical form is handed to its handler, and what the handler returns
    is evaluated in turn. *)
Lemma eval_body_logic_form `{Host} ev ap name handler operands env h :
  LOGIC_FORMS name = Some handler ->
  eval_body ev ap (form name operands) env h
  = (do expr <- handler ev (scheme_list operands) env in ev expr env) h.
Proof.
  intros Hform. unfold eval_body, form. cbn [is_none scheme_symbolp].
  rewrite scheme_atomp_pair. cbn [scheme_stringp is_okay orb scheme_listp].
  rewrite scheme_listp_scheme_list. cbn [negb attr_first attr_second].
  rewrite !bind_lift_inr.
  assert (Hsym : scheme_symbolp (PyStr name) = true).
  { unfold LOGIC_FORMS in Hform.
    repeat match type of Hform with
           | context [String.eqb name ?s] =>
               destruct (String.eqb_spec name s) as [->|_]; [reflexivity|]
           end.
    discriminate. }
  cbn [logic_form]. rewrite Hsym, Hform. reflexivity.
Qed.

Lemma snoc_middle {A} (done : list A) x rest :
  done ++ x :: rest = (done ++ [x]) ++ rest.
Proof. rewrite <- app_assoc. reflexivity. Qed.

Lemma scheme_true_not_false v : scheme_true v = true -> scheme_false v = false.
Proof. destruct v as [| [] | | | | | | | |]; (reflexivity || discriminate). Qed.

Lemma scheme_false_not_true v : scheme_false v = true -> scheme_true v = false.
Proof. destruct v as [| [] | | | | | | | |]; (reflexivity || discriminate). Qed.

Lemma default_last_cons {A} (d x : A) l :
  default d (last (x :: l)) = default x (last l).
Proof.
  destruct l as [|y l]; [reflexivity|].
  change (last (x :: y :: l)) with (last (y :: l)).
  destruct (last (y :: l)) eqn:Hl; [reflexivity|].
  apply last_None in Hl. discriminate.
Qed.

Section Forms.
Variable ev : evaluator.
Variable env : loc.

(** *** and *)

Lemma and_loop_all_true done es h vs h' test :
  eval_operands ev env es h vs h' -> all_true vs ->
  and_loop ev (scheme_list (done ++ es)) env (length done) (length es) test h
  = Some (h', inr (quote (default test (last vs)))).
Proof.
  intros Hes. revert done test.
  induction Hes as [h|e es h v h1 vs h2 He Hes IH]; intros done test Htrue.
  - reflexivity.
  - apply Forall_cons in Htrue as [Hv Htrue]. cbn [length and_loop].
    rewrite py_getitem_middle, bind_lift_inr.
    rewrite (bind_inr _ _ _ _ _ He), (scheme_true_not_false v Hv).
    rewrite snoc_middle.
    replace (S (length done)) with (length (done ++ [e]))
      by (rewrite length_app; cbn; lia).
    rewrite (IH _ v Htrue), default_last_cons. reflexivity.
Qed.

Lemma and_loop_false done pre e post h vs h1 h2 test :
  eval_operands ev env pre h vs h1 -> all_true vs ->
  ev e env h1 = Some (h2, inr (PyBool false)) ->
  and_loop ev (scheme_list (done ++ pre ++ e :: post)) env (length done)
    (length (pre ++ e :: post)) test h
  = Some (h2, inr (PyBool false)).
Proof.
  intros Hpre. revert done test.
  induction Hpre as [h|e' es h v h1 vs h3 He' Hes IH];
    intros done test Htrue He.
  - cbn [app length and_loop].
    rewrite py_getitem_middle, bind_lift_inr, (bind_inr _ _ _ _ _ He).
    reflexivity.
  - apply Forall_cons in Htrue as [Hv Htrue].
    cbn [app length and_loop].
    rewrite py_getitem_middle, bind_lift_inr.
    rewrite (bind_inr _ _ _ _ _ He'), (scheme_true_not_false v Hv).
    rewrite snoc_middle.
    replace (S (length done)) with (length (done ++ [e']))
      by (rewrite length_app; cbn; lia).
    apply IH; assumption.
Qed.

Lemma do_and_form_all_true es h vs h' v :
  eval_operands ev env es h vs h' -> all_true vs -> last vs = Some v ->
  do_and_form ev (scheme_list es) env h = Some (h', inr (quote v)).
Proof.
  intros Hes Htrue Hlast. unfold do_and_form.
  rewrite py_len_scheme_list, bind_lift_inr.
  destruct es as [|e es]; [inversion Hes; subst; discriminate|].
  pose proof (and_loop_all_true [] (e :: es) h vs h' PyNone Hes Htrue) as Hloop.
  cbn [app length] in Hloop. cbn [length Nat.eqb].
  rewrite Hloop, Hlast. reflexivity.
Qed.

Lemma do_and_form_false pre e post h vs h1 h2 :
  eval_operands ev env pre h vs h1 -> all_true vs ->
  ev e env h1 = Some (h2, inr (PyBool false)) ->
  do_and_form ev (scheme_list (pre ++ e :: post)) env h
  = Some (h2, inr (PyBool false)).
Proof.
  intros Hpre Htrue He. unfold do_and_form.
  rewrite py_len_scheme_list, bind_lift_inr.
  destruct (length (pre ++ e :: post)) eqn:Hlen.
  - rewrite length_app in Hlen. cbn in Hlen. lia.
  - cbn [Nat.eqb]. rewrite <- Hlen.
    apply (and_loop_false [] pre e post h vs h1 h2 PyNone Hpre Htrue He).
Qed.

(** *** or *)

Lemma or_loop_all_false done pre rest k h vs h1 last :
  eval_operands ev env pre h vs h1 -> all_false vs ->
  or_loop ev (scheme_list (done ++ pre ++ rest)) env (length done)
    (length pre + k) last h
  = or_loop ev (scheme_list (done ++ pre ++ rest)) env
      (length done + length pre) k last h1.
Proof.
  intros Hpre. revert done.
  induction Hpre as [h|e es h v h1 vs h2 He Hes IH]; intros done Hfalse.
  - cbn [length]. rewrite Nat.add_0_r. reflexivity.
  - apply Forall_cons in Hfalse as [Hv Hfalse].
    cbn [app length Nat.add or_loop].
    rewrite py_getitem_middle, bind_lift_inr.
    rewrite (bind_inr _ _ _ _ _ He), (scheme_false_not_true v Hv).
    rewrite (snoc_middle done e).
    replace (S (length done)) with (length (done ++ [e]))
      by (rewrite length_app; cbn; lia).
    rewrite (IH _ Hfalse), length_app. cbn [length].
    rewrite <- Nat.add_assoc. reflexivity.
Qed.

Lemma do_or_form_true pre e post h vs h1 h2 v :
  eval_operands ev env pre h vs h1 -> all_false vs -> post <> [] ->
  ev e env h1 = Some (h2, inr v) -> scheme_true v = true ->
  do_or_form ev (scheme_list (pre ++ e :: post)) env h
  = Some (h2, inr (quote v)).
Proof.
  intros Hpre Hfalse Hpost He Hv. unfold do_or_form.
  rewrite py_len_scheme_list, bind_lift_inr.
  destruct post as [|e' post]; [contradiction|].
  rewrite length_app. cbn [length].
  replace (length pre + S (S (length post)))
    with (S (length pre + S (length post))) by lia.
  pose proof (or_loop_all_false [] pre (e :: e' :: post) (S (length post))
                h vs h1 (length pre + S (length post)) Hpre Hfalse) as Hloop.
  cbn [app length Nat.add] in Hloop. rewrite Hloop. cbn [or_loop].
  rewrite (py_getitem_middle pre e (e' :: post)), bind_lift_inr.
  rewrite (bind_inr _ _ _ _ _ He), Hv. reflexivity.
Qed.

Lemma do_or_form_last pre e h vs h1 :
  eval_operands ev env pre h vs h1 -> all_false vs ->
  do_or_form ev (scheme_list (pre ++ [e])) env h = Some (h1, inr e).
Proof.
  intros Hpre Hfalse. unfold do_or_form.
  rewrite py_len_scheme_list, bind_lift_inr.
  rewrite length_app. cbn [length]. rewrite Nat.add_1_r.
  pose proof (or_loop_all_false [] pre [e] 0 h vs h1 (length pre)
                Hpre Hfalse) as Hloop.
  cbn [app length Nat.add] in Hloop. rewrite Nat.add_0_r in Hloop.
  rewrite Hloop. cbn [or_loop].
  rewrite (py_getitem_middle pre e []). reflexivity.
Qed.

(** *** begin *)

Lemma begin_loop_operands es h vs h' returned :
  eval_operands ev env es h vs h' ->
  begin_loop ev env (scheme_list es) returned h
  = Some (h', inr (quote (default returned (last vs)))).
Proof.
  intros Hes. revert returned.
  induction Hes as [h|e es h v h1 vs h2 He Hes IH]; intros returned.
  - reflexivity.
  - cbn [scheme_list begin_loop].
    rewrite (bind_inr _ _ _ _ _ He), IH, default_last_cons. reflexivity.
Qed.

Lemma do_begin_form_operands es h vs h' v :
  eval_operands ev env es h vs h' -> last vs = Some v ->
  do_begin_form ev (scheme_list es) env h = Some (h', inr (quote v)).
Proof.
  intros Hes Hlast. unfold do_begin_form.
  rewrite check_form_scheme_list.
  destruct es as [|e es]; [inversion Hes; subst; discriminate|].
  cbn [length Nat.ltb Nat.leb]. rewrite bind_lift_inr.
  rewrite (begin_loop_operands _ _ _ _ PyNone Hes), Hlast. reflexivity.
Qed.
End Forms.

Ltac operands_atoms :=
  repeat first
    [ apply eval_operands_nil
    | eapply eval_operands_cons; [apply eval_atom; reflexivity|] ].

(** ** The short-circuit forms *)

(** C5: in every environment and store, [(and)] evaluates to true and
    [(or)] to false.  The operands of [and] are evaluated from left to
    right: when all of them give true values the form gives the value of
    the last one; when one gives false the form gives false, with the store
    that this operand left, whatever operands follow it.  The operands of
    [or] are evaluated from left to right: the form gives the first true
    value, with the store that this operand left, whatever operands follow
    it; when all operands but the last give false, the form is worth
    whatever the last operand is worth.  In particular [(and 1 2 3)] is 3,
    [(or #f #f 5)] is 5 and [(and 1 #f 3)] is false. *)
Theorem and_or_short_circuit `{Host} (budget : nat) (env : loc) (h : store) :
  let ev := scheme_eval (S budget) in
  let run := fun expr => scheme_eval (S (S budget)) expr env h in
  run (form "and" []) = Some (h, inr (PyBool true))
  /\ run (form "or" []) = Some (h, inr (PyBool false))
  /\ (forall es vs h' v,
        eval_operands ev env es h vs h' -> all_true vs -> last vs = Some v ->
        run (form "and" es) = Some (h', inr v))
  /\ (forall pre e post vs h1 h2,
        eval_operands ev env pre h vs h1 -> all_true vs ->
        ev e env h1 = Some (h2, inr (PyBool false)) ->
        run (form "and" (pre ++ e :: post)) = Some (h2, inr (PyBool false)))
  /\ (forall pre e post vs h1 h2 v,
        eval_operands ev env pre h vs h1 -> all_false vs ->
        ev e env h1 = Some (h2, inr v) -> scheme_true v = true ->
        run (form "or" (pre ++ e :: post)) = Some (h2, inr v))
  /\ (forall pre e vs h1,
        eval_operands ev env pre h vs h1 -> all_false vs ->
        run (form "or" (pre ++ [e])) = ev e env h1)
  /\ run (form "and" [PyInt 1; PyInt 2; PyInt 3]) = Some (h, inr (PyInt 3))
  /\ run (form "or" [PyBool false; PyBool false; PyInt 5])
     = Some (h, inr (PyInt 5))
  /\ run (form "and" [PyInt 1; PyBool false; PyInt 3])
     = Some (h, inr (PyBool false)).
Proof.
  intros ev run.
  assert (Hand : forall es, run (form "and" es)
    = (do expr <- do_and_form ev (scheme_list es) env in ev expr env) h)
    by (intros es; apply eval_body_logic_form; reflexivity).
  assert (Hor : forall es, run (form "or" es)
    = (do expr <- do_or_form ev (scheme_list es) env in ev expr env) h)
    by (intros es; apply eval_body_logic_form; reflexivity).
  assert (Hall : forall es vs h' v,
    eval_operands ev env es h vs h' -> all_true vs -> last vs = Some v ->
    run (form "and" es) = Some (h', inr v)).
  { intros es vs h' v Hes Htrue Hlast. rewrite Hand.
    rewrite (bind_inr _ _ _ _ _ (do_and_form_all_true _ _ _ _ _ _ _ Hes Htrue Hlast)).
    apply scheme_eval_quote. }
  assert (Hstop : forall pre e post vs h1 h2,
    eval_operands ev env pre h vs h1 -> all_true vs ->
    ev e env h1 = Some (h2, inr (PyBool false)) ->
    run (form "and" (pre ++ e :: post)) = Some (h2, inr (PyBool false))).
  { intros pre e post vs h1 h2 Hpre Htrue He. rewrite Hand.
    rewrite (bind_inr _ _ _ _ _ (do_and_form_false _ _ _ _ post _ _ _ _ Hpre Htrue He)).
    apply eval_atom. reflexivity. }
  assert (Hlast : forall pre e vs h1,
    eval_operands ev env pre h vs h1 -> all_false vs ->
    run (form "or" (pre ++ [e])) = ev e env h1).
  { intros pre e vs h1 Hpre Hfalse. rewrite Hor.
    rewrite (bind_inr _ _ _ _ _ (do_or_form_last _ _ _ _ _ _ _ Hpre Hfalse)).
    reflexivity. }
  assert (Hfirst : forall pre e post vs h1 h2 v,
    eval_operands ev env pre h vs h1 -> all_false vs ->
    ev e env h1 = Some (h2, inr v) -> scheme_true v = true ->
    run (form "or" (pre ++ e :: post)) = Some (h2, inr v)).
  { intros pre e post vs h1 h2 v Hpre Hfalse He Hv.
    destruct post as [|e' post].
    - rewrite (Hlast pre e vs h1 Hpre Hfalse). exact He.
    - rewrite Hor.
      rewrite (bind_inr _ _ _ _ _
                 (do_or_form_true _ _ _ _ (e' :: post) _ _ _ _ _
                    Hpre Hfalse ltac:(discriminate) He Hv)).
      apply scheme_eval_quote. }
  repeat split; try assumption.
  - rewrite Hand. apply eval_atom. reflexivity.
  - rewrite Hor. apply eval_atom. reflexivity.
  - apply (Hall _ [PyInt 1; PyInt 2; PyInt 3] h);
      [operands_atoms | repeat constructor | reflexivity].
  - apply (Hfirst [PyBool false; PyBool false] (PyInt 5) []
             [PyBool false; PyBool false] h h);
      [operands_atoms | repeat constructor | apply eval_atom | ]; reflexivity.
  - apply (Hstop [PyInt 1] (PyBool false) [PyInt 3] [PyInt 1] h h);
      [operands_atoms | repeat constructor | apply eval_atom; reflexivity].
Qed.

Lemma and_or_short_circuit_witness :
  scheme_eval (H := no_primitives) 2
    (form "and" ([PyInt 1] ++ PyBool false :: [sym "unbound"])) 0 global_only
  = Some (global_only, inr (PyBool false))
  /\ scheme_eval (H := no_primitives) 2
       (form "or" ([PyBool false] ++ PyInt 5 :: [sym "unbound"])) 0 global_only
     = Some (global_only, inr (PyInt 5)).
Proof.
  split.
  - refine (proj1 (proj2 (proj2 (proj2
              (and_or_short_circuit (H := no_primitives) 0 0 global_only))))
              [PyInt 1] (PyBool false) [sym "unbound"] [PyInt 1]
              global_only global_only _ _ _).
    + eapply eval_operands_cons; [vm_compute; reflexivity|].
      apply eval_operands_nil.
    + repeat constructor.
    + vm_compute. reflexivity.
  - refine (proj1 (proj2 (proj2 (proj2 (proj2
              (and_or_short_circuit (H := no_primitives) 0 0 global_only)))))
              [PyBool false] (PyInt 5) [sym "unbound"] [PyBool false]
              global_only global_only (PyInt 5) _ _ _ _).
    + eapply eval_operands_cons; [vm_compute; reflexivity|].
      apply eval_operands_nil.
    + repeat constructor.
    + vm_compute. reflexivity.
    + reflexivity.
Defined.

(** ** Sequencing *)

(** C7: [(begin)] with no operand fails.  With operands [e1 ... en], they
    are evaluated in order, each in the store the one before left, and the
    form is worth exactly the value of [en], which is returned as it is and
    not evaluated again: a result that is a symbol is not looked up, so
    [(begin (quote s))] is worth the symbol [s] whether or not the
    environment binds it. *)
Theorem begin_returns_last `{Host} (budget : nat) (env : loc) (h : store) :
  let ev := scheme_eval (S budget) in
  let run := fun expr => scheme_eval (S (S budget)) expr env h in
  run (form "begin" []) = Some (h, inl (SchemeError TooFewOperands))
  /\ (forall es vs h' v,
        eval_operands ev env es h vs h' -> last vs = Some v ->
        run (form "begin" es) = Some (h', inr v))
  /\ (forall s, run (form "begin" [quote (PyStr s)]) = Some (h, inr (PyStr s))).
Proof.
  intros ev run.
  assert (Hbegin : forall es, run (form "begin" es)
    = (do expr <- do_begin_form ev (scheme_list es) env in ev expr env) h)
    by (intros es; apply eval_body_logic_form; reflexivity).
  assert (Hall : forall es vs h' v,
    eval_operands ev env es h vs h' -> last vs = Some v ->
    run (form "begin" es) = Some (h', inr v)).
  { intros es vs h' v Hes Hlast. rewrite Hbegin.
    rewrite (bind_inr _ _ _ _ _ (do_begin_form_operands _ _ _ _ _ _ _ Hes Hlast)).
    apply scheme_eval_quote. }
  split; [|split].
  - rewrite Hbegin. reflexivity.
  - exact Hall.
  - intros s. apply (Hall _ [PyStr s] h); [|reflexivity].
    eapply eval_operands_cons; [apply scheme_eval_quote | apply eval_operands_nil].
Qed.

Lemma begin_returns_last_witness :
  exists h',
    scheme_eval (H := no_primitives) 3
      (form "begin" [form "define" [sym "x"; PyInt 4]; sym "x"]) 0 global_only
    = Some (h', inr (PyInt 4)).
Proof.
  eexists.
  refine (proj1 (proj2 (begin_returns_last (H := no_primitives) 1 0 global_only))
            [form "define" [sym "x"; PyInt 4]; sym "x"]
            [sym "x"; PyInt 4] _ (PyInt 4) _ eq_refl).
  eapply eval_operands_cons; [vm_compute; reflexivity|].
  eapply eval_operands_cons; [vm_compute; reflexivity|].
  apply eval_operands_nil.
Defined.

(** ** Conditionals *)

Lemma check_form_clause x l : check_form (Pair x (scheme_list l)) 1 None = inr tt.
Proof.
  change (Pair x (scheme_list l)) with (scheme_list (x :: l)).
  rewrite check_form_scheme_list. reflexivity.
Qed.

Lemma cond_loop_skip ev env num_clauses i pre rest h h1 :
  clauses_fail ev env pre h h1 ->
  cond_loop ev env num_clauses i (pre ++ rest) h
  = cond_loop ev env num_clauses (i + length pre) rest h1.
Proof.
  intros Hpre. revert i.
  induction Hpre as [h|test body clauses h h1 h2 Helse Htest Hpre IH]; intros i.
  - cbn [app length]. rewrite Nat.add_0_r. reflexivity.
  - cbn [app length cond_loop].
    rewrite check_form_clause. cbn [attr_first attr_second].
    rewrite !bind_lift_inr, Helse.
    rewrite (bind_inr _ _ _ _ _ Htest). cbn [scheme_true].
    rewrite IH. f_equal. lia.
Qed.

Lemma do_cond_form_else ev env pre body post h h1 :
  clauses_fail ev env pre h h1 ->
  do_cond_form ev (scheme_list (pre ++ form "else" body :: post)) env h
  = match post, body with
    | _ :: _, _ => Some (h1, inl (SchemeError (MalformedElseClause ElseNotLast)))
    | [], [] => Some (h1, inl (SchemeError (MalformedElseClause ElseWithoutBody)))
    | [], expr :: body' =>
        Some (h1, inr (match body' with
                       | [] => expr
                       | _ => Pair (PyStr "begin") (scheme_list body)
                       end))
    end.
Proof.
  intros Hpre. unfold do_cond_form.
  rewrite py_len_scheme_list, py_iter_scheme_list, !bind_lift_inr.
  rewrite (cond_loop_skip _ _ _ 0 pre _ h h1 Hpre).
  cbn [Nat.add cond_loop]. unfold form.
  rewrite check_form_clause. cbn [attr_first attr_second].
  rewrite !bind_lift_inr.
  change (eq_str (PyStr "else") "else") with true. cbv iota.
  destruct post as [|clause post]; rewrite length_app; cbn [length].
  - replace (length pre <? length pre + 1 - 1)%nat with false
      by (symmetry; apply Nat.ltb_ge; lia).
    destruct body as [|expr body]; [reflexivity|].
    cbn [scheme_list eq_nil scheme_nullp].
    rewrite (bind_inr _ _ h1 h1 (PyBool true)) by reflexivity.
    cbn [scheme_true].
    change (Pair expr (scheme_list body)) with (scheme_list (expr :: body)).
    rewrite py_len_scheme_list, bind_lift_inr.
    destruct body as [|expr' body]; reflexivity.
  - replace (length pre <? length pre + S (S (length post)) - 1)%nat with true
      by (symmetry; apply Nat.ltb_lt; lia).
    reflexivity.
Qed.

(** C6 does not hold when a clause before the [else] clause matches: the
    loop returns from that clause and never looks at the clauses after
    it.  [(cond (#t 1) (else 2) (#f 3))] is worth 1
    although its [else] clause is not the last one, and [(cond (#t 1)
    (else))] is worth 1 although its [else] clause has no body. *)
Lemma cond_else_not_reached :
  scheme_eval (H := no_primitives) 3
    (form "cond" [scheme_list [PyBool true; PyInt 1]; form "else" [PyInt 2];
                  scheme_list [PyBool false; PyInt 3]]) 0 global_only
  = Some (global_only, inr (PyInt 1))
  /\ scheme_eval (H := no_primitives) 3
       (form "cond" [scheme_list [PyBool true; PyInt 1]; form "else" []])
       0 global_only
     = Some (global_only, inr (PyInt 1)).
Proof. split; vm_compute; reflexivity. Qed.

(** C6, amended: when every clause before an [else] clause is a
    well-formed clause whose test evaluates to false, so that evaluation
    reaches the [else] clause, the [cond] form fails with
    [MalformedElseClause] if the [else] clause is not the final clause, and
    also if it is the final clause and has no body expression.
    [(cond (#f 1) (else 2 3))] evaluates to 3. *)
Theorem cond_else_clause `{Host} (budget : nat) (env : loc) (h : store) :
  let ev := scheme_eval (S budget) in
  let run := fun expr => scheme_eval (S (S budget)) expr env h in
  (forall pre body post h1,
     clauses_fail ev env pre h h1 -> post <> [] ->
     run (form "cond" (pre ++ form "else" body :: post))
     = Some (h1, inl (SchemeError (MalformedElseClause ElseNotLast))))
  /\ (forall pre h1,
        clauses_fail ev env pre h h1 ->
        run (form "cond" (pre ++ [form "else" []]))
        = Some (h1, inl (SchemeError (MalformedElseClause ElseWithoutBody))))
  /\ scheme_eval (S (S (S budget)))
       (form "cond" [scheme_list [PyBool false; PyInt 1];
                     form "else" [PyInt 2; PyInt 3]]) env h
     = Some (h, inr (PyInt 3)).
Proof.
  intros ev run.
  assert (Hcond : forall budget es,
    scheme_eval (S (S budget)) (form "cond" es) env h
    = (do expr <- do_cond_form (scheme_eval (S budget)) (scheme_list es) env in
       scheme_eval (S budget) expr env) h)
    by (intros b es; apply eval_body_logic_form; reflexivity).
  split; [|split].
  - intros pre body post h1 Hpre Hpost. unfold run. rewrite Hcond.
    apply bind_inl. rewrite (do_cond_form_else _ _ _ _ _ _ _ Hpre).
    destruct post; [contradiction | reflexivity].
  - intros pre h1 Hpre. unfold run. rewrite Hcond.
    apply bind_inl. rewrite (do_cond_form_else _ _ _ _ _ _ _ Hpre).
    reflexivity.
  - rewrite Hcond.
    rewrite (bind_inr _ _ h h (form "begin" [PyInt 2; PyInt 3])).
    + cbn [scheme_eval].
      rewrite (eval_body_logic_form _ _ "begin" do_begin_form) by reflexivity.
      rewrite (bind_inr _ _ h h (quote (PyInt 3))); [apply scheme_eval_quote|].
      apply (do_begin_form_operands _ _ _ _ [PyInt 2; PyInt 3]);
        [operands_atoms | reflexivity].
    + apply (do_cond_form_else _ _ [scheme_list [PyBool false; PyInt 1]]
               [PyInt 2; PyInt 3] [] h h).
      apply (clauses_fail_cons _ _ (PyBool false) [PyInt 1] [] h h h);
        [reflexivity | apply eval_atom; reflexivity | apply clauses_fail_nil].
Qed.

Lemma cond_else_clause_witness :
  scheme_eval (H := no_primitives) 2
    (form "cond"
       ([scheme_list [PyBool false; PyInt 1]]
          ++ form "else" [PyInt 2] :: [scheme_list [PyBool false; PyInt 3]]))
    0 global_only
  = Some (global_only, inl (SchemeError (MalformedElseClause ElseNotLast))).
Proof.
  refine (proj1 (cond_else_clause (H := no_primitives) 0 0 global_only)
            [scheme_list [PyBool false; PyInt 1]] [PyInt 2]
            [scheme_list [PyBool false; PyInt 3]] global_only _ _).
  - apply (clauses_fail_cons _ _ (PyBool false) [PyInt 1] [] _ global_only);
      [reflexivity | vm_compute; reflexivity | apply clauses_fail_nil].
  - discriminate.
Defined.

(** ** Definitions *)

Lemma bind_lift {A B} (r : result A) (k : A -> M B) h :
  bind (lift r) k h = match r with inl e => Some (h, inl e) | inr a => k a h end.
Proof. destruct r; reflexivity. Qed.

Lemma check_form_listp expr min max :
  check_form expr min max = inr tt -> scheme_listp expr = true.
Proof.
  unfold check_form. destruct (scheme_listp expr); [reflexivity | discriminate].
Qed.

Lemma two_operands vals target expr :
  check_form vals 2 (Some 2) = inr tt ->
  py_getitem vals 0 = inr target -> py_getitem vals 1 = inr expr ->
  vals = scheme_list [target; expr].
Proof.
  intros Hcf H0 H1.
  destruct (scheme_listp_items vals (check_form_listp _ _ _ Hcf)) as [l ->].
  rewrite check_form_scheme_list in Hcf.
  destruct l as [|x [|y [|z l]]]; try discriminate.
  cbn in H0, H1. congruence.
Qed.

(** C10 does not hold when the value expression changes the environment
    before it raises: [(define x (begin (define y 1) z))], with [z]
    unbound, raises from the value expression and leaves [y] bound in the
    target frame, where it was not bound before. *)
Lemma define_keeps_effects_of_value :
  do_define_form (scheme_eval (H := no_primitives) 5)
    (scheme_list [sym "x";
                  form "begin" [form "define" [sym "y"; PyInt 1]; sym "z"]])
    0 global_only
  = Some ([mkFrame {[ "y" := PyInt 1 ]} None],
          inl (SchemeError (UnboundIdentifier "z")))
  /\ lookup 0 "y" global_only
     = Some (global_only, inl (SchemeError (UnboundIdentifier "y")))
  /\ lookup 0 "y" [mkFrame {[ "y" := PyInt 1 ]} None]
     = Some ([mkFrame {[ "y" := PyInt 1 ]} None], inr (PyInt 1)).
Proof. repeat split; vm_compute; reflexivity. Qed.

(** C10, amended: when [do_define_form] raises, either the store is
    exactly the one it started from (wrong operand count, invalid target,
    invalid or duplicate formals of the shorthand form), or the form is
    [(define symbol expr)], the exception comes from the evaluation of
    [expr] and the store is the one that this evaluation left: [define]
    itself has added or changed no binding.  When it returns, it returns a
    symbol and the store is the one left by the evaluation of the value,
    with that symbol bound in the frame [env]. *)
Theorem define_binds_on_success (ev : evaluator) (vals : value) (env : loc)
    (h : store) :
  (forall h' e,
     do_define_form ev vals env h = Some (h', inl e) ->
     h' = h
     \/ exists target expr,
          vals = scheme_list [target; expr] /\ scheme_symbolp target = true
          /\ ev expr env h = Some (h', inl e))
  /\ (forall h' name,
        do_define_form ev vals env h = Some (h', inr name) ->
        scheme_symbolp name = true
        /\ exists h1 val,
             h' = alter (set_binding (str_of name) val) env h1
             /\ (h1 = h \/ exists expr, ev expr env h = Some (h1, inr val))).
Proof.
  unfold do_define_form. rewrite bind_lift.
  destruct (check_form vals 2 None) as [e0|[]] eqn:Hcf;
    [split; [intros h' e [= <- _]; left; reflexivity | discriminate]|].
  rewrite bind_lift.
  destruct (py_getitem vals 0) as [e0|target] eqn:Htarget;
    [split; [intros h' e [= <- _]; left; reflexivity | discriminate]|].
  destruct (scheme_symbolp target) eqn:Hsym.
  - rewrite bind_lift.
    destruct (check_form vals 2 (Some 2)) as [e0|[]] eqn:Hcf2;
      [split; [intros h' e [= <- _]; left; reflexivity | discriminate]|].
    rewrite bind_lift.
    destruct (py_getitem vals 1) as [e0|expr] eqn:Hexpr;
      [split; [intros h' e [= <- _]; left; reflexivity | discriminate]|].
    split.
    + intros h' e Hb.
      apply bind_Some in Hb as [(h1 & e1 & Hev & [= -> ->])|(h1 & val & Hev & Hb)].
      * right. exists target, expr.
        split; [apply two_operands; assumption | split; assumption].
      * rewrite (bind_inr _ _ _ _ _ (define_symbol env target val h1 Hsym)) in Hb.
        discriminate.
    + intros h' name Hb.
      apply bind_Some in Hb as [(h1 & e1 & Hev & [=])|(h1 & val & Hev & Hb)].
      rewrite (bind_inr _ _ _ _ _ (define_symbol env target val h1 Hsym)) in Hb.
      injection Hb as <- <-. split; [assumption|].
      exists h1, val. split; [reflexivity|]. right. exists expr. assumption.
  - destruct target;
      try (split; [intros h' e [= <- _]; left; reflexivity | discriminate]).
    rewrite bind_lift.
    destruct (attr_second vals) as [e0|body];
      [split; [intros h' e [= <- _]; left; reflexivity | discriminate]|].
    rewrite bind_lift.
    destruct (do_lambda_form _ env) as [e0|f];
      [split; [intros h' e [= <- _]; left; reflexivity | discriminate]|].
    destruct (scheme_symbolp target1) eqn:Hname.
    + rewrite (bind_inr _ _ _ _ _ (define_symbol env target1 f h Hname)).
      split; [discriminate|]. intros h' name [= <- <-].
      split; [assumption|]. exists h, f. split; [reflexivity | left; reflexivity].
    + rewrite (bind_inl _ _ _ _ _ (define_not_symbol env target1 f h Hname)).
      split; [intros h' e [= <- _]; left; reflexivity | discriminate].
Qed.

Lemma define_binds_on_success_witness :
  global_only = global_only
  \/ exists target expr,
       scheme_list [PyInt 3; PyInt 4] = scheme_list [target; expr]
       /\ scheme_symbolp target = true
       /\ scheme_eval (H := no_primitives) 5 expr 0 global_only
          = Some (global_only, inl (SchemeError InvalidDefineTarget)).
Proof.
  refine (proj1 (define_binds_on_success (scheme_eval (H := no_primitives) 5)
                   (scheme_list [PyInt 3; PyInt 4]) 0 global_only)
            global_only (SchemeError InvalidDefineTarget) _).
  vm_compute. reflexivity.
Defined.

(** ** Local bindings *)

Lemma scheme_eval_S `{Host} budget expr env :
  scheme_eval (S budget) expr env
  = eval_body (scheme_eval budget) (scheme_apply budget) expr env.
Proof. reflexivity. Qed.

Lemma eval_body_let `{Host} ev ap operands env h :
  eval_body ev ap (form "let" operands) env h
  = (do '(expr, env') <- do_let_form ev (scheme_list operands) env in
     ev expr env') h.
Proof.
  unfold eval_body, form. cbn [is_none scheme_symbolp].
  rewrite scheme_atomp_pair. cbn [scheme_stringp is_okay orb scheme_listp].
  rewrite scheme_listp_scheme_list. reflexivity.
Qed.

Lemma define_newest (h : store) fr name val :
  scheme_symbolp name = true ->
  define (length h) name val (h ++ [fr])
  = Some (h ++ [set_binding (str_of name) val fr], inr tt).
Proof.
  intros Hname. rewrite define_symbol by assumption.
  rewrite alter_app_r_alt by lia. rewrite Nat.sub_diag. reflexivity.
Qed.

(** A number, a boolean or a variable has the same value in a store with
    one more frame at its end, whatever that frame binds. *)
Lemma outer_value_eval `{Host} budget env (h : store) expr v fr :
  outer_value env h expr v ->
  scheme_eval (S budget) expr env (h ++ [fr]) = Some (h ++ [fr], inr v).
Proof.
  intros [z|b|s w Hs Hl].
  - apply eval_atom. reflexivity.
  - apply eval_atom. reflexivity.
  - cbn [scheme_eval]. rewrite eval_body_symbol by assumption.
    apply (lookup_extend env s h); [assumption|].
    intros l fr' Hfr. apply lookup_app_l_Some, Hfr.
Qed.

Lemma let_bindings_outer `{Host} budget env (h : store) names exprs vals m :
  symbols names -> length names = length exprs ->
  Forall2 (outer_value env h) exprs vals ->
  let_bindings (scheme_eval (S budget)) env (length h)
    (zip_with (fun name expr => scheme_list [name; expr]) names exprs)
    (h ++ [mkFrame m (Some env)])
  = Some (h ++ [mkFrame (bind_list names vals m) (Some env)], inr tt).
Proof.
  intros Hsym Hlen Hvals. revert names m Hsym Hlen.
  induction Hvals as [|expr v exprs vals Hv Hvals IH];
    intros [|name names] m Hsym Hlen; try discriminate.
  - reflexivity.
  - apply Forall_cons in Hsym as [Hname Hsym].
    cbn [zip_with let_bindings bind_list].
    change (py_getitem (scheme_list [name; expr]) 0) with (@inr exn _ name).
    change (py_getitem (scheme_list [name; expr]) 1) with (@inr exn _ expr).
    rewrite !bind_lift_inr.
    rewrite (bind_inr _ _ _ _ _ (outer_value_eval budget env h expr v _ Hv)).
    rewrite (bind_inr _ _ _ _ _ (define_newest h _ name v Hname)).
    apply IH; [assumption | cbn in Hlen; lia].
Qed.

Lemma do_let_form_one_body ev bindings body env h :
  do_let_form ev (scheme_list [scheme_list bindings; body]) env h
  = (exec let_bindings ev env (length h) bindings in
     ret (body, length h)) (h ++ [mkFrame ∅ (Some env)]).
Proof.
  unfold do_let_form. rewrite check_form_scheme_list.
  cbn [length Nat.ltb Nat.leb]. rewrite bind_lift_inr.
  change (py_getitem (scheme_list [scheme_list bindings; body]) 0)
    with (@inr exn _ (scheme_list bindings)).
  cbn [scheme_list attr_second]. rewrite !bind_lift_inr.
  rewrite scheme_listp_scheme_list. cbn [negb].
  rewrite (bind_inr _ _ h (h ++ [mkFrame ∅ (Some env)]) (length h)) by reflexivity.
  rewrite py_iter_scheme_list, bind_lift_inr.
  apply (f_equal (fun k => bind (let_bindings ev env (length h) bindings) k
                             (h ++ [mkFrame ∅ (Some env)]))).
  reflexivity.
Qed.

Lemma eval_range_operands ev env done front rest h vs h1 :
  eval_operands ev env front h vs h1 ->
  eval_range ev (scheme_list (done ++ front ++ rest)) env (length done)
    (length front) h
  = Some (h1, inr tt).
Proof.
  intros Hfront. revert done.
  induction Hfront as [h|e es h v h1 vs h2 He Hes IH]; intros done; [reflexivity|].
  cbn [app length eval_range].
  rewrite py_getitem_middle, bind_lift_inr, (bind_inr _ _ _ _ _ He).
  rewrite (snoc_middle done e).
  replace (S (length done)) with (length (done ++ [e]))
    by (rewrite length_app; cbn; lia).
  apply IH.
Qed.

Lemma do_let_form_bodies ev bindings front last env h h0 vs h1 :
  let_bindings ev env (length h) bindings (h ++ [mkFrame ∅ (Some env)])
  = Some (h0, inr tt) ->
  eval_operands ev (length h) front h0 vs h1 ->
  do_let_form ev (scheme_list (scheme_list bindings :: front ++ [last])) env h
  = Some (h1, inr (last, length h)).
Proof.
  intros Hbind Hfront. unfold do_let_form. rewrite check_form_scheme_list.
  replace (length (scheme_list bindings :: front ++ [last]) <? 2)%nat with false
    by (symmetry; apply Nat.ltb_ge; cbn; rewrite length_app; cbn; lia).
  rewrite bind_lift_inr.
  cbn [scheme_list py_getitem pair_getitem attr_second]. rewrite !bind_lift_inr.
  rewrite scheme_listp_scheme_list. cbn [negb].
  rewrite (bind_inr _ _ h (h ++ [mkFrame ∅ (Some env)]) (length h)) by reflexivity.
  rewrite py_iter_scheme_list, bind_lift_inr, (bind_inr _ _ _ _ _ Hbind).
  rewrite py_len_scheme_list, bind_lift_inr, length_app. cbn [length].
  rewrite Nat.add_1_r.
  pose proof (eval_range_operands ev (length h) [] front [last] h0 vs h1 Hfront)
    as Hrange.
  cbn [app length] in Hrange. rewrite (bind_inr _ _ _ _ _ Hrange).
  rewrite (py_getitem_middle front last []). reflexivity.
Qed.

Lemma do_let_form_binding_raises ev bindings bodies env h h0 err :
  bodies <> [] ->
  let_bindings ev env (length h) bindings (h ++ [mkFrame ∅ (Some env)])
  = Some (h0, inl err) ->
  do_let_form ev (scheme_list (scheme_list bindings :: bodies)) env h
  = Some (h0, inl err).
Proof.
  intros Hbodies Hbind. unfold do_let_form. rewrite check_form_scheme_list.
  destruct bodies as [|body bodies]; [contradiction|].
  cbn [length Nat.ltb Nat.leb]. rewrite bind_lift_inr.
  cbn [scheme_list py_getitem pair_getitem attr_second]. rewrite !bind_lift_inr.
  rewrite scheme_listp_scheme_list. cbn [negb].
  rewrite (bind_inr _ _ h (h ++ [mkFrame ∅ (Some env)]) (length h)) by reflexivity.
  rewrite py_iter_scheme_list, bind_lift_inr.
  apply (bind_inl _ _ _ _ _ Hbind).
Qed.

Lemma bind_None {A B} (m : M A) (k : A -> M B) h :
  m h = None -> bind m k h = None.
Proof. unfold bind. intros ->. reflexivity. Qed.

Lemma do_let_form_binding_diverges ev bindings bodies env h :
  bodies <> [] ->
  let_bindings ev env (length h) bindings (h ++ [mkFrame ∅ (Some env)]) = None ->
  do_let_form ev (scheme_list (scheme_list bindings :: bodies)) env h = None.
Proof.
  intros Hbodies Hbind. unfold do_let_form. rewrite check_form_scheme_list.
  destruct bodies as [|body bodies]; [contradiction|].
  cbn [length Nat.ltb Nat.leb]. rewrite bind_lift_inr.
  cbn [scheme_list py_getitem pair_getitem attr_second]. rewrite !bind_lift_inr.
  rewrite scheme_listp_scheme_list. cbn [negb].
  rewrite (bind_inr _ _ h (h ++ [mkFrame ∅ (Some env)]) (length h)) by reflexivity.
  rewrite py_iter_scheme_list, bind_lift_inr.
  apply bind_None, Hbind.
Qed.

(** The binding loop, while the value expressions return, and at the first
    one that does not. *)
Lemma let_bindings_values ev env new_env names exprs h vals h1 rest :
  let_values ev env new_env names exprs h vals h1 ->
  let_bindings ev env new_env
    (zip_with (fun name expr => scheme_list [name; expr]) names exprs ++ rest) h
  = let_bindings ev env new_env rest h1.
Proof.
  induction 1 as [h|name names expr exprs h v h1 h2 vals h3 Hexpr Hdef _ IH];
    [reflexivity|].
  cbn [zip_with app let_bindings].
  change (py_getitem (scheme_list [name; expr]) 0) with (@inr exn _ name).
  change (py_getitem (scheme_list [name; expr]) 1) with (@inr exn _ expr).
  rewrite !bind_lift_inr, (bind_inr _ _ _ _ _ Hexpr), (bind_inr _ _ _ _ _ Hdef).
  exact IH.
Qed.

Lemma let_bindings_binding ev env new_env name expr rest h :
  let_bindings ev env new_env (scheme_list [name; expr] :: rest) h
  = (do val <- ev expr env in
     exec define new_env name val in
     let_bindings ev env new_env rest) h.
Proof. reflexivity. Qed.

(** In a well-formed store a walk visits the frame it starts from and
    frames made before it: what a later frame binds does not matter. *)
Lemma lookup_walk_alter_later budget (h : store) f l self s :
  wf_store h -> (forall e, self = Some e -> e < l) ->
  lookup_walk budget (alter f l h) self s = lookup_walk budget h self s.
Proof.
  intros Hwf. revert self.
  induction budget as [|budget IH]; intros [e|] Hlt; try reflexivity.
  cbn [lookup_walk].
  rewrite list_lookup_alter_ne by (specialize (Hlt e eq_refl); lia).
  destruct (h !! e) as [fr|] eqn:He; [|reflexivity].
  destruct (bindings fr !! s); [reflexivity|].
  apply IH. intros p Hp. specialize (Hwf e fr p He Hp).
  specialize (Hlt e eq_refl). lia.
Qed.

Lemma lookup_alter_later (h : store) f l env s :
  wf_store h -> env < l ->
  lookup env s (alter f l h)
  = match lookup env s h with
    | Some (_, r) => Some (alter f l h, r)
    | None => None
    end.
Proof.
  intros Hwf Hlt. unfold lookup. rewrite length_alter.
  rewrite lookup_walk_alter_later; [|assumption|intros e [= <-]; assumption].
  destruct (lookup_walk _ _ _ _); reflexivity.
Qed.

Section LetForm.
Context `{Host}.
Variables (budget : nat) (env : loc) (h : store).

Lemma let_form_values names exprs vals h1 front last vs h2 :
  let_values (scheme_eval (S budget)) env (length h) names exprs
    (h ++ [mkFrame ∅ (Some env)]) vals h1 ->
  eval_operands (scheme_eval (S budget)) (length h) front h1 vs h2 ->
  scheme_eval (S (S budget))
    (form "let"
       (scheme_list
          (zip_with (fun name expr => scheme_list [name; expr]) names exprs)
        :: front ++ [last])) env h
  = scheme_eval (S budget) last (length h) h2.
Proof.
  intros Hvals Hfront. rewrite scheme_eval_S, eval_body_let.
  rewrite (bind_inr _ _ h h2 (last, length h)); [reflexivity|].
  apply (do_let_form_bodies _ _ _ _ _ _ h1 vs); [|assumption].
  rewrite <- (app_nil_r (zip_with _ names exprs)).
  apply (let_bindings_values _ _ _ _ _ _ _ _ [] Hvals).
Qed.

Lemma let_form_value_raises names exprs vals h1 name expr rest bodies h2 e :
  bodies <> [] ->
  let_values (scheme_eval (S budget)) env (length h) names exprs
    (h ++ [mkFrame ∅ (Some env)]) vals h1 ->
  scheme_eval (S budget) expr env h1 = Some (h2, inl e) ->
  scheme_eval (S (S budget))
    (form "let"
       (scheme_list
          (zip_with (fun name expr => scheme_list [name; expr]) names exprs
           ++ scheme_list [name; expr] :: rest)
        :: bodies)) env h
  = Some (h2, inl e).
Proof.
  intros Hbodies Hvals Hexpr. rewrite scheme_eval_S, eval_body_let.
  apply bind_inl. apply do_let_form_binding_raises; [assumption|].
  rewrite (let_bindings_values _ _ _ _ _ _ _ _ _ Hvals).
  rewrite let_bindings_binding. apply bind_inl, Hexpr.
Qed.

Lemma let_form_value_diverges names exprs vals h1 name expr rest bodies :
  bodies <> [] ->
  let_values (scheme_eval (S budget)) env (length h) names exprs
    (h ++ [mkFrame ∅ (Some env)]) vals h1 ->
  scheme_eval (S budget) expr env h1 = None ->
  scheme_eval (S (S budget))
    (form "let"
       (scheme_list
          (zip_with (fun name expr => scheme_list [name; expr]) names exprs
           ++ scheme_list [name; expr] :: rest)
        :: bodies)) env h
  = None.
Proof.
  intros Hbodies Hvals Hexpr. rewrite scheme_eval_S, eval_body_let.
  apply bind_None. apply do_let_form_binding_diverges; [assumption|].
  rewrite (let_bindings_values _ _ _ _ _ _ _ _ _ Hvals).
  rewrite let_bindings_binding. apply bind_None, Hexpr.
Qed.

Lemma let_form_name_invalid names exprs vals h1 name expr rest bodies h2 v :
  bodies <> [] ->
  let_values (scheme_eval (S budget)) env (length h) names exprs
    (h ++ [mkFrame ∅ (Some env)]) vals h1 ->
  scheme_eval (S budget) expr env h1 = Some (h2, inr v) ->
  scheme_symbolp name = false ->
  scheme_eval (S (S budget))
    (form "let"
       (scheme_list
          (zip_with (fun name expr => scheme_list [name; expr]) names exprs
           ++ scheme_list [name; expr] :: rest)
        :: bodies)) env h
  = Some (h2, inl (SchemeError (InvalidBindingTarget name))).
Proof.
  intros Hbodies Hvals Hexpr Hname. rewrite scheme_eval_S, eval_body_let.
  apply bind_inl. apply do_let_form_binding_raises; [assumption|].
  rewrite (let_bindings_values _ _ _ _ _ _ _ _ _ Hvals).
  rewrite let_bindings_binding, (bind_inr _ _ _ _ _ Hexpr).
  apply bind_inl. apply define_not_symbol, Hname.
Qed.

Lemma let_form_outer_values names exprs vals body :
  symbols names -> length names = length exprs ->
  Forall2 (outer_value env h) exprs vals ->
  scheme_eval (S (S budget)) (let_form names exprs body) env h
  = scheme_eval (S budget) body (length h)
      (h ++ [mkFrame (bind_list names vals ∅) (Some env)]).
Proof.
  intros Hsym Hlen Hvals.
  unfold let_form. rewrite scheme_eval_S, eval_body_let.
  rewrite (bind_inr _ _ _
             (h ++ [mkFrame (bind_list names vals ∅) (Some env)])
             (body, length h)); [reflexivity|].
  rewrite do_let_form_one_body.
  rewrite (bind_inr _ _ _ _ _
             (let_bindings_outer budget env h names exprs vals ∅ Hsym Hlen Hvals)).
  reflexivity.
Qed.

(** The frame of [(let ((x 1) ...) ...)] once [x] is bound: [env] does not
    see it. *)
Lemma let_values_x_1 b :
  let_values (scheme_eval (S b)) env (length h) [sym "x"] [PyInt 1]
    (h ++ [mkFrame ∅ (Some env)]) [PyInt 1]
    (h ++ [mkFrame {[ "x" := PyInt 1 ]} (Some env)]).
Proof.
  eapply let_values_cons; [| |apply let_values_nil].
  - apply eval_atom. reflexivity.
  - exact (define_newest h (mkFrame ∅ (Some env)) (sym "x") (PyInt 1) eq_refl).
Qed.

Lemma lookup_x_outer fr :
  lookup env "x" h = Some (h, inl (SchemeError (UnboundIdentifier "x"))) ->
  lookup env "x" (h ++ [fr])
  = Some (h ++ [fr], inl (SchemeError (UnboundIdentifier "x"))).
Proof.
  intros Hx. apply (lookup_extend env "x" h); [assumption|].
  intros l fr' Hfr. apply lookup_app_l_Some, Hfr.
Qed.

End LetForm.

(** C3: in every [let] form [(let ((name expr) ...) body ...)] each value
    expression is evaluated, from left to right, in the outer environment
    [env] of the form, whatever expression it is, and its value is defined
    in the new frame only, a child of [env].  When all the value
    expressions return, the body runs in that frame; when one raises, the
    form raises the same exception; when one does not return, neither does
    the form; and a name that is no symbol is rejected only once its value
    expression has returned.  A lookup from [env] does not depend on what
    the new frame binds.  When the value expressions are numbers, booleans
    and variables, the new frame therefore binds each name to the value its
    expression has in [env], where none of the new names is bound by the
    form.  In particular [(let ((x 1) (y x)) y)], in an environment
    that does not bind [x], fails with [UnboundIdentifier] while it
    evaluates the binding of [y], although the new frame binds [x] to 1 by
    then; so does [(let ((x 1) (y (begin x))) y)]. *)
Theorem let_binds_simultaneously `{Host} (budget : nat) (env : loc) (h : store) :
  let ev := scheme_eval (S budget) in
  let run := fun expr => scheme_eval (S (S budget)) expr env h in
  let pairs := zip_with (fun name expr : value => scheme_list [name; expr]) in
  let started := h ++ [mkFrame ∅ (Some env)] in
  (forall names exprs vals h1 front last vs h2,
     let_values ev env (length h) names exprs started vals h1 ->
     eval_operands ev (length h) front h1 vs h2 ->
     run (form "let" (scheme_list (pairs names exprs) :: front ++ [last]))
     = ev last (length h) h2)
  /\ (forall names exprs vals h1 name expr rest bodies h2 e,
        bodies <> [] ->
        let_values ev env (length h) names exprs started vals h1 ->
        ev expr env h1 = Some (h2, inl e) ->
        run (form "let"
               (scheme_list (pairs names exprs ++ scheme_list [name; expr] :: rest)
                :: bodies))
        = Some (h2, inl e))
  /\ (forall names exprs vals h1 name expr rest bodies,
        bodies <> [] ->
        let_values ev env (length h) names exprs started vals h1 ->
        ev expr env h1 = None ->
        run (form "let"
               (scheme_list (pairs names exprs ++ scheme_list [name; expr] :: rest)
                :: bodies))
        = None)
  /\ (forall names exprs vals h1 name expr rest bodies h2 v,
        bodies <> [] ->
        let_values ev env (length h) names exprs started vals h1 ->
        ev expr env h1 = Some (h2, inr v) ->
        scheme_symbolp name = false ->
        run (form "let"
               (scheme_list (pairs names exprs ++ scheme_list [name; expr] :: rest)
                :: bodies))
        = Some (h2, inl (SchemeError (InvalidBindingTarget name))))
  /\ (forall h' f s, wf_store h' -> env < length h ->
        lookup env s (alter f (length h) h')
        = match lookup env s h' with
          | Some (_, r) => Some (alter f (length h) h', r)
          | None => None
          end)
  /\ (forall names exprs vals body,
        symbols names -> length names = length exprs ->
        Forall2 (outer_value env h) exprs vals ->
        run (let_form names exprs body)
        = ev body (length h)
            (h ++ [mkFrame (bind_list names vals ∅) (Some env)]))
  /\ (lookup env "x" h = Some (h, inl (SchemeError (UnboundIdentifier "x"))) ->
      run (let_form [sym "x"; sym "y"] [PyInt 1; sym "x"] (sym "y"))
      = Some (h ++ [mkFrame {[ "x" := PyInt 1 ]} (Some env)],
              inl (SchemeError (UnboundIdentifier "x")))
      /\ scheme_eval (S (S (S budget)))
           (let_form [sym "x"; sym "y"] [PyInt 1; form "begin" [sym "x"]]
              (sym "y")) env h
         = Some (h ++ [mkFrame {[ "x" := PyInt 1 ]} (Some env)],
                 inl (SchemeError (UnboundIdentifier "x")))).
Proof.
  intros ev run pairs started. subst ev run pairs started. cbv beta.
  split; [|split; [|split; [|split; [|split; [|split]]]]].
  - apply let_form_values.
  - apply let_form_value_raises.
  - apply let_form_value_diverges.
  - apply let_form_name_invalid.
  - intros h' f s Hwf Hlt. apply lookup_alter_later; assumption.
  - apply let_form_outer_values.
  - intros Hx. split.
    + apply (let_form_value_raises budget env h [sym "x"] [PyInt 1] [PyInt 1]
               (h ++ [mkFrame {[ "x" := PyInt 1 ]} (Some env)])
               (sym "y") (sym "x") [] [sym "y"]);
        [discriminate | apply let_values_x_1 |].
      rewrite scheme_eval_S. unfold sym.
      rewrite eval_body_symbol by reflexivity.
      apply lookup_x_outer, Hx.
    + apply (let_form_value_raises (S budget) env h [sym "x"] [PyInt 1] [PyInt 1]
               (h ++ [mkFrame {[ "x" := PyInt 1 ]} (Some env)])
               (sym "y") (form "begin" [sym "x"]) [] [sym "y"]);
        [discriminate | apply let_values_x_1 |].
      rewrite scheme_eval_S.
      rewrite (eval_body_logic_form _ _ "begin" do_begin_form) by reflexivity.
      apply bind_inl. unfold do_begin_form. rewrite check_form_scheme_list.
      cbn [length Nat.ltb Nat.leb]. rewrite bind_lift_inr.
      cbn [scheme_list begin_loop]. apply bind_inl.
      rewrite scheme_eval_S. unfold sym.
      rewrite eval_body_symbol by reflexivity.
      apply lookup_x_outer, Hx.
Qed.

Lemma let_binds_simultaneously_witness :
  scheme_eval (H := no_primitives) 3
    (form "let"
       (scheme_list
          (zip_with (fun name expr => scheme_list [name; expr])
             [sym "x"; sym "y"] [PyInt 5; form "begin" [sym "x"]])
        :: [] ++ [sym "y"])) 0 two_scopes
  = Some (two_scopes ++ [mkFrame {[ "x" := PyInt 5; "y" := PyInt 1 ]} (Some 0)],
          inr (PyInt 1))
  /\ scheme_eval (H := no_primitives) 3
       (form "let"
          (scheme_list
             (zip_with (fun name expr => scheme_list [name; expr])
                [sym "x"] [PyInt 1]
              ++ scheme_list [sym "y"; form "begin" [sym "x"]] :: [])
           :: [sym "y"])) 0 global_only
     = Some (global_only ++ [mkFrame {[ "x" := PyInt 1 ]} (Some 0)],
             inl (SchemeError (UnboundIdentifier "x")))
  /\ scheme_eval (H := no_primitives) 2
       (let_form [sym "x"; sym "y"] [PyInt 2; sym "x"] (sym "y")) 1 two_scopes
     = scheme_eval (H := no_primitives) 1 (sym "y") 2
         (two_scopes ++
            [mkFrame (bind_list [sym "x"; sym "y"] [PyInt 2; PyInt 2] ∅) (Some 1)])
  /\ scheme_eval (H := no_primitives) 2
       (let_form [sym "x"; sym "y"] [PyInt 1; sym "x"] (sym "y")) 0 global_only
     = Some (global_only ++ [mkFrame {[ "x" := PyInt 1 ]} (Some 0)],
             inl (SchemeError (UnboundIdentifier "x"))).
Proof.
  split; [|split; [|split]].
  - eapply eq_trans.
    + apply (proj1 (let_binds_simultaneously (H := no_primitives) 1 0 two_scopes)
               [sym "x"; sym "y"] [PyInt 5; form "begin" [sym "x"]]
               [PyInt 5; PyInt 1]
               (two_scopes
                  ++ [mkFrame {[ "x" := PyInt 5; "y" := PyInt 1 ]} (Some 0)])
               [] (sym "y") []).
      * eapply let_values_cons; [vm_compute; reflexivity ..|].
        eapply let_values_cons; [vm_compute; reflexivity ..|].
        apply let_values_nil.
      * apply eval_operands_nil.
    + vm_compute. reflexivity.
  - apply (proj1 (proj2 (let_binds_simultaneously (H := no_primitives)
                           1 0 global_only))
             [sym "x"] [PyInt 1] [PyInt 1]
             (global_only ++ [mkFrame {[ "x" := PyInt 1 ]} (Some 0)])).
    + discriminate.
    + eapply let_values_cons; [vm_compute; reflexivity ..|].
      apply let_values_nil.
    + vm_compute. reflexivity.
  - apply (proj1 (proj2 (proj2 (proj2 (proj2 (proj2 (let_binds_simultaneously
                                         (H := no_primitives) 0 1 two_scopes))))))).
    + repeat constructor.
    + reflexivity.
    + constructor; [constructor|].
      constructor; [|constructor].
      apply outer_variable; vm_compute; reflexivity.
  - refine (proj1 (proj2 (proj2 (proj2 (proj2 (proj2 (proj2
              (let_binds_simultaneously (H := no_primitives) 0 0 global_only))))))
              _)).
    vm_compute. reflexivity.
Defined.

(** * Further properties *)

(** ** Frames: definitions and lookups *)

Lemma lookup_walk_total (h : store) symbol budget l :
  wf_store h -> l < budget -> l < length h ->
  exists r, lookup_walk budget h (Some l) symbol = Some r.
Proof.
  intros Hwf. revert l. induction budget as [|budget IH]; intros l Hb Hl; [lia|].
  cbn [lookup_walk].
  destruct (lookup_lt_is_Some_2 h l Hl) as [fr Hfr]. rewrite Hfr.
  destruct (bindings fr !! symbol) as [v|]; [eauto|].
  destruct (parent fr) as [p|] eqn:Hp.
  - specialize (Hwf l fr p Hfr Hp). apply IH; lia.
  - destruct budget; cbn; eauto.
Qed.

(** X1: in a well-formed store, looking a name up from a frame of the store
    always returns or fails with [UnboundIdentifier], leaving the store as
    it is; the answer is the binding of the frame itself when it has one,
    and otherwise the answer of its parent (the failure when there is no
    parent). *)
Theorem lookup_nearest_frame (h : store) (self : loc) (fr : Frame) (symbol : string) :
  wf_store h -> h !! self = Some fr ->
  (exists r, lookup self symbol h = Some (h, r))
  /\ lookup self symbol h
     = match bindings fr !! symbol with
       | Some v => Some (h, inr v)
       | None =>
           match parent fr with
           | Some p => lookup p symbol h
           | None => Some (h, inl (SchemeError (UnboundIdentifier symbol)))
           end
       end.
Proof.
  intros Hwf Hfr.
  assert (Hself : self < length h) by (apply lookup_lt_Some in Hfr; exact Hfr).
  destruct (lookup_walk_total h symbol (length h) self Hwf Hself Hself) as [r Hr].
  split; [exists r; unfold lookup; rewrite Hr; reflexivity|].
  unfold lookup at 1. rewrite Hr.
  destruct (length h) as [|n] eqn:Hn; [lia|]. cbn [lookup_walk] in Hr.
  rewrite Hfr in Hr.
  destruct (bindings fr !! symbol) as [v|]; [injection Hr as <-; reflexivity|].
  destruct (parent fr) as [p|] eqn:Hp.
  - unfold lookup. rewrite Hn.
    rewrite (lookup_walk_extend n (S n) h h (Some p) symbol r Hr);
      [reflexivity | lia | auto].
  - destruct n; cbn in Hr; injection Hr as <-; reflexivity.
Qed.

Lemma lookup_nearest_frame_witness :
  lookup 1 "x" two_scopes = Some (two_scopes, inr (PyInt 2))
  /\ exists r, lookup 1 "y" two_scopes = Some (two_scopes, r).
Proof.
  assert (Hwf : wf_store two_scopes).
  { intros [|[|l]] fr p Hfr Hp; cbn in Hfr; try discriminate;
      injection Hfr as <-; cbn in Hp; [discriminate|].
    injection Hp as <-. lia. }
  split.
  - rewrite (proj2 (lookup_nearest_frame two_scopes 1 _ "x" Hwf eq_refl)).
    reflexivity.
  - apply (proj1 (lookup_nearest_frame two_scopes 1 _ "y" Hwf eq_refl)).
Defined.

Lemma lookup_walk_define_other budget (h : store) self s val o s' :
  s' <> s ->
  lookup_walk budget (alter (set_binding s val) self h) o s'
  = lookup_walk budget h o s'.
Proof.
  intros Hne. revert o. induction budget as [|budget IH]; intros [l|]; try reflexivity.
  cbn [lookup_walk]. rewrite list_lookup_alter.
  destruct (decide (self = l)) as [->|_]; [|destruct (h !! l) as [fr|]; [|reflexivity];
    destruct (bindings fr !! s'); [reflexivity | apply IH]].
  destruct (h !! l) as [fr|]; [|reflexivity]. cbn [fmap option_fmap option_map].
  cbn [set_binding bindings parent]. rewrite lookup_insert_ne by congruence.
  destruct (bindings fr !! s'); [reflexivity | apply IH].
Qed.

(** X2: defining a symbol in a frame of the store succeeds; the frame then
    answers a lookup of that symbol with the value just defined, whatever
    it or its ancestors bound before.  Lookups of any other name, from any
    frame, answer as before, and no other frame is changed. *)
Theorem define_then_lookup (h : store) (self : loc) (fr : Frame) (s : string)
    (val : value) :
  scheme_symbolp (PyStr s) = true -> h !! self = Some fr ->
  exists h',
    define self (PyStr s) val h = Some (h', inr tt)
    /\ lookup self s h' = Some (h', inr val)
    /\ (forall l s' r, s' <> s ->
          lookup l s' h = Some (h, r) -> lookup l s' h' = Some (h', r))
    /\ (forall l, l <> self -> h' !! l = h !! l).
Proof.
  intros Hs Hfr. exists (alter (set_binding s val) self h).
  split; [apply (define_symbol self (PyStr s) val h Hs)|]. split; [|split].
  - unfold lookup. rewrite length_alter.
    destruct (length h) as [|n] eqn:Hn.
    + apply lookup_lt_Some in Hfr. lia.
    + cbn [lookup_walk]. rewrite list_lookup_alter_eq, Hfr.
      cbn [fmap option_fmap option_map set_binding bindings].
      rewrite lookup_insert_eq. reflexivity.
  - intros l s' r Hne Hl. apply lookup_inv in Hl as (r' & [= <-] & Hw).
    unfold lookup. rewrite length_alter, lookup_walk_define_other, Hw by assumption.
    reflexivity.
  - intros l Hl. apply list_lookup_alter_ne. congruence.
Qed.

Lemma define_then_lookup_witness :
  exists h',
    define 1 (sym "x") (PyInt 9) two_scopes = Some (h', inr tt)
    /\ lookup 1 "x" h' = Some (h', inr (PyInt 9))
    /\ h' !! 0 = two_scopes !! 0.
Proof.
  destruct (define_then_lookup two_scopes 1 _ "x" (PyInt 9) eq_refl eq_refl)
    as (h' & Hd & Hl & _ & Hother).
  exists h'. split; [exact Hd|]. split; [exact Hl|]. apply Hother. discriminate.
Defined.

(** ** Frames: the shape of the store *)

Lemma wf_store_parents (h h' : store) :
  (forall l, parent <$> (h' !! l) = parent <$> (h !! l)) ->
  wf_store h -> wf_store h'.
Proof.
  intros Hp Hwf l fr p Hfr Hpar. specialize (Hp l). rewrite Hfr in Hp.
  destruct (h !! l) as [fr0|] eqn:Hfr0; [|discriminate].
  injection Hp as Hp. apply (Hwf l fr0 p Hfr0). congruence.
Qed.

Lemma wf_store_new_frame (h : store) m self :
  wf_store h -> self < length h -> wf_store (h ++ [mkFrame m (Some self)]).
Proof.
  intros Hwf Hself l fr p Hfr Hp.
  destruct (decide (l < length h)) as [Hl|Hl].
  - rewrite lookup_app_l in Hfr by assumption. apply (Hwf l fr p Hfr Hp).
  - rewrite lookup_app_r in Hfr by lia.
    destruct (l - length h) as [|k] eqn:Hk; [|destruct k; discriminate].
    injection Hfr as <-. cbn in Hp. injection Hp as <-. lia.
Qed.

Lemma define_length frame f v h h' r :
  define frame f v h = Some (h', r) -> length h' = length h.
Proof.
  destruct (scheme_symbolp f) eqn:Hf.
  - rewrite define_symbol by assumption. intros [= <- _]. apply length_alter.
  - rewrite define_not_symbol by assumption. intros [= <- _]. reflexivity.
Qed.

Lemma bind_formals_length frame formals vals h h' r :
  bind_formals frame formals vals h = Some (h', r) -> length h' = length h.
Proof.
  revert vals h. induction formals; intros vals h; destruct vals; cbn;
    try (intros [= <- _]; reflexivity).
  intros Hb. apply bind_Some in Hb as [(h1 & e & Hd & [= -> _])|(h1 & [] & Hd & Hb)].
  - apply (define_length _ _ _ _ _ _ Hd).
  - rewrite (IHformals2 _ _ Hb). apply (define_length _ _ _ _ _ _ Hd).
Qed.

(** X3: [make_call_frame], called on a frame of a well-formed store,
    leaves a well-formed store with exactly one more frame, whether it
    returns the new frame or fails; the frames that were there keep their
    parents. *)
Theorem make_call_frame_well_formed (h h' : store) (self : loc)
    (formals vals : value) (r : result loc) :
  wf_store h -> self < length h ->
  make_call_frame self formals vals h = Some (h', r) ->
  wf_store h' /\ length h' = S (length h) /\ store_grows h h'.
Proof.
  intros Hwf Hself Hm. unfold make_call_frame in Hm.
  assert (Hb : exists r', bind_formals (length h) formals vals
                            (h ++ [mkFrame ∅ (Some self)]) = Some (h', r')).
  { apply bind_Some in Hm as [(h1 & e & [=] & _)|(h1 & fr & [= <- <-] & Hm)].
    apply bind_Some in Hm as [(h2 & e & Hb & [= <- _])|(h2 & [] & Hb & [= <- _])];
      eauto. }
  destruct Hb as [r' Hb].
  assert (Hlen : length h' = S (length h)).
  { rewrite (bind_formals_length _ _ _ _ _ _ Hb), length_app. cbn. lia. }
  split; [|split; [exact Hlen|split; [lia|]]].
  - apply (wf_store_parents (h ++ [mkFrame ∅ (Some self)]));
      [|apply wf_store_new_frame; assumption].
    intros l. apply (bind_formals_parent _ _ _ _ _ _ l Hb).
  - intros l Hl. rewrite (bind_formals_parent _ _ _ _ _ _ l Hb).
    rewrite lookup_app_l by assumption. reflexivity.
Qed.

Lemma two_scopes_wf : wf_store two_scopes.
Proof.
  intros [|[|l]] fr p Hfr Hp; cbn in Hfr; try discriminate;
    injection Hfr as <-; cbn in Hp; [discriminate|].
  injection Hp as <-. lia.
Defined.

Lemma make_call_frame_well_formed_witness :
  wf_store (two_scopes ++ [mkFrame {[ "a" := PyInt 7 ]} (Some 1)])
  /\ length (two_scopes ++ [mkFrame {[ "a" := PyInt 7 ]} (Some 1)]) = 3
  /\ store_grows two_scopes
       (two_scopes ++ [mkFrame {[ "a" := PyInt 7 ]} (Some 1)]).
Proof.
  apply (make_call_frame_well_formed two_scopes _ 1 (scheme_list [sym "a"])
           (scheme_list [PyInt 7; PyInt 8])
           (inl (SchemeError ArityMismatch)) two_scopes_wf).
  - cbn. lia.
  - vm_compute. reflexivity.
Defined.

Lemma global_frame_walk_mono budget budget' (h : store) e g :
  global_frame_walk budget h e = Some g -> budget <= budget' ->
  global_frame_walk budget' h e = Some g.
Proof.
  revert budget' e. induction budget as [|budget IH]; intros budget' e Hw Hle;
    [discriminate|].
  destruct budget' as [|budget']; [lia|]. cbn [global_frame_walk] in Hw |- *.
  destruct (h !! e) as [fr|]; [|discriminate].
  destruct (parent fr); [apply IH; [exact Hw | lia] | exact Hw].
Qed.

Lemma global_frame_walk_total (h : store) budget e :
  wf_store h -> e < budget -> e < length h ->
  exists g root,
    global_frame_walk budget h e = Some g
    /\ h !! g = Some root /\ parent root = None /\ g <= e.
Proof.
  intros Hwf. revert e. induction budget as [|budget IH]; intros e Hb He; [lia|].
  cbn [global_frame_walk].
  destruct (lookup_lt_is_Some_2 h e He) as [fr Hfr]. rewrite Hfr.
  destruct (parent fr) as [p|] eqn:Hp.
  - specialize (Hwf e fr p Hfr Hp).
    destruct (IH p ltac:(lia) ltac:(lia)) as (g & root & Hg & Hroot & Hnone & Hle).
    exists g, root. repeat split; try assumption. lia.
  - exists e, fr. repeat split; try assumption. lia.
Qed.

(** X4: in a well-formed store, [global_frame] of a frame of the store
    returns a frame that has no parent, without changing the store; a frame
    without parent is its own global frame, and any other frame has the
    global frame of its parent. *)
Theorem global_frame_is_root (h : store) (self : loc) (fr : Frame) :
  wf_store h -> h !! self = Some fr ->
  (exists g root,
     global_frame self h = Some (h, inr g)
     /\ h !! g = Some root /\ parent root = None)
  /\ global_frame self h
     = match parent fr with
       | None => Some (h, inr self)
       | Some p => global_frame p h
       end.
Proof.
  intros Hwf Hfr.
  assert (Hself : self < length h) by (apply lookup_lt_Some in Hfr; exact Hfr).
  destruct (global_frame_walk_total h (length h) self Hwf Hself Hself)
    as (g & root & Hg & Hroot & Hnone & _).
  split.
  - exists g, root. unfold global_frame. rewrite Hg. auto.
  - unfold global_frame at 1. rewrite Hg.
    destruct (length h) as [|n] eqn:Hn; [lia|]. cbn [global_frame_walk] in Hg.
    rewrite Hfr in Hg. destruct (parent fr) as [p|]; [|congruence].
    unfold global_frame. rewrite Hn.
    rewrite (global_frame_walk_mono n (S n) h p g Hg); [reflexivity | lia].
Qed.

Lemma global_frame_is_root_witness :
  global_frame 1 two_scopes = global_frame 0 two_scopes
  /\ global_frame 0 two_scopes = Some (two_scopes, inr 0).
Proof.
  split.
  - apply (proj2 (global_frame_is_root two_scopes 1 _ two_scopes_wf eq_refl)).
  - apply (proj2 (global_frame_is_root two_scopes 0 _ two_scopes_wf eq_refl)).
Defined.

(** ** Evaluation only makes the store grow *)

Lemma store_grows_refl (h : store) : store_grows h h.
Proof. split; [lia | reflexivity]. Qed.

Lemma store_grows_trans (h1 h2 h3 : store) :
  store_grows h1 h2 -> store_grows h2 h3 -> store_grows h1 h3.
Proof.
  intros [Hl12 Hp12] [Hl23 Hp23]. split; [lia|].
  intros l Hl. rewrite Hp23 by lia. apply Hp12, Hl.
Qed.

Lemma keeps_ret {A} (a : A) : keeps (ret a).
Proof. intros h h' r [= <- _]. apply store_grows_refl. Qed.

Lemma keeps_raise {A} e : keeps (@raise A e).
Proof. intros h h' r [= <- _]. apply store_grows_refl. Qed.

Lemma keeps_lift {A} (x : result A) : keeps (lift x).
Proof. intros h h' r [= <- _]. apply store_grows_refl. Qed.

Lemma keeps_diverge {A} : keeps (@diverge A).
Proof. intros h h' r [=]. Qed.

Lemma keeps_bind {A B} (m : M A) (k : A -> M B) :
  keeps m -> (forall a, keeps (k a)) -> keeps (bind m k).
Proof.
  intros Hm Hk h h' r Hb.
  apply bind_Some in Hb as [(h1 & e & H1 & [= -> _])|(h1 & a & H1 & H2)].
  - apply (Hm _ _ _ H1).
  - eapply store_grows_trans; [apply (Hm _ _ _ H1) | apply (Hk _ _ _ _ H2)].
Qed.

Lemma keeps_except {A} (m : M A) : keeps m -> keeps (except_type_error m).
Proof.
  intros Hm h h' r. unfold except_type_error.
  destruct (m h) as [[h1 r1]|] eqn:E; [|discriminate].
  specialize (Hm _ _ _ E).
  destruct r1 as [[]|]; intros [= <- _]; exact Hm.
Qed.

Lemma keeps_lookup self symbol : keeps (lookup self symbol).
Proof.
  intros h h' r Hl. apply lookup_inv in Hl as (r' & [= <- _] & _).
  apply store_grows_refl.
Qed.

Lemma keeps_define frame f v : keeps (define frame f v).
Proof.
  intros h h' r Hd. split.
  - rewrite (define_length _ _ _ _ _ _ Hd). lia.
  - intros l _. apply (define_parent _ _ _ _ _ _ l Hd).
Qed.

Lemma keeps_make_call_frame self formals vals :
  keeps (make_call_frame self formals vals).
Proof.
  unfold make_call_frame. apply keeps_bind.
  - intros h h' r [= <- _]. split; [rewrite length_app; lia|].
    intros l Hl. rewrite lookup_app_l by assumption. reflexivity.
  - intros frame. apply keeps_bind; [|intros; apply keeps_ret].
    intros h h' r Hb. split.
    + rewrite (bind_formals_length _ _ _ _ _ _ Hb). lia.
    + intros l _. apply (bind_formals_parent _ _ _ _ _ _ l Hb).
Qed.

Ltac keeps_step :=
  match goal with
  | |- keeps (ret _) => apply keeps_ret
  | |- keeps (raise _) => apply keeps_raise
  | |- keeps (scheme_raise _) => apply keeps_raise
  | |- keeps (lift _) => apply keeps_lift
  | |- keeps diverge => apply keeps_diverge
  | |- keeps (lookup _ _) => apply keeps_lookup
  | |- keeps (define _ _ _) => apply keeps_define
  | |- keeps (make_call_frame _ _ _) => apply keeps_make_call_frame
  | H : forall expr env, keeps (?ev expr env) |- keeps (?ev _ _) => apply H
  | H : forall procedure args env, keeps (?ap procedure args env)
    |- keeps (?ap _ _ _) => apply H
  | |- keeps (bind _ _) => apply keeps_bind; [|intros ?]
  | |- keeps (except_type_error _) => apply keeps_except
  | |- keeps (let '(_, _) := ?x in _) => destruct x
  | |- keeps (if ?b then _ else _) => destruct b
  | |- keeps (match ?x with _ => _ end) => destruct x
  end.

Ltac keeps_auto := repeat keeps_step.

Section Keeps.
Context `{Host}.
Hypothesis Hhost : forall name args env, keeps (host_call name args env).
Variable ev : evaluator.
Hypothesis Hev : forall expr env, keeps (ev expr env).

Lemma keeps_pair_map env p : keeps (pair_map (fun operand => ev operand env) p).
Proof.
  induction p; cbn; keeps_auto; assumption.
Qed.

Lemma keeps_let_bindings env new_env pairs :
  keeps (let_bindings ev env new_env pairs).
Proof. induction pairs; cbn; keeps_auto. assumption. Qed.

Lemma keeps_eval_range exprs env i count :
  keeps (eval_range ev exprs env i count).
Proof. revert i. induction count; intros i; cbn; keeps_auto. apply IHcount. Qed.

Lemma keeps_and_loop vals env i count test :
  keeps (and_loop ev vals env i count test).
Proof.
  revert i test. induction count; intros i test; cbn; keeps_auto. apply IHcount.
Qed.

Lemma keeps_or_loop vals env i count last :
  keeps (or_loop ev vals env i count last).
Proof. revert i. induction count; intros i; cbn; keeps_auto. apply IHcount. Qed.

Lemma keeps_cond_loop env num_clauses i clauses :
  keeps (cond_loop ev env num_clauses i clauses).
Proof. revert i. induction clauses; intros i; cbn; keeps_auto. apply IHclauses. Qed.

Lemma keeps_begin_loop env vals returned :
  keeps (begin_loop ev env vals returned).
Proof.
  revert returned. induction vals; intros returned; cbn; keeps_auto.
  apply IHvals2.
Qed.

Lemma keeps_logic_form first handler vals env :
  logic_form first = Some handler -> keeps (handler ev vals env).
Proof.
  destruct first; try discriminate. cbn [logic_form].
  destruct (scheme_symbolp (PyStr s)); [|discriminate]. unfold LOGIC_FORMS.
  repeat (destruct (String.eqb s _); [intros [= <-]|]); try discriminate.
  - unfold do_and_form. keeps_auto. apply keeps_and_loop.
  - unfold do_or_form. keeps_auto. apply keeps_or_loop.
  - unfold do_if_form. keeps_auto.
  - unfold do_cond_form. keeps_auto. apply keeps_cond_loop.
  - unfold do_begin_form. keeps_auto. apply keeps_begin_loop.
Qed.

Lemma keeps_do_define_form vals env : keeps (do_define_form ev vals env).
Proof. unfold do_define_form. keeps_auto. Qed.

Lemma keeps_do_let_form vals env : keeps (do_let_form ev vals env).
Proof.
  unfold do_let_form. keeps_auto.
  - apply keeps_let_bindings.
  - apply keeps_eval_range.
Qed.

Variable ap : applier.
Hypothesis Hap : forall procedure args env, keeps (ap procedure args env).

Lemma keeps_apply_primitive fn args env :
  keeps (apply_primitive ev ap fn args env).
Proof.
  unfold apply_primitive. apply keeps_bind; [apply keeps_lift|].
  intros args_as_list. apply keeps_except.
  unfold call_fn. destruct fn; keeps_auto; apply Hhost.
Qed.

Lemma keeps_apply_body procedure args env :
  keeps (apply_body ev ap procedure args env).
Proof.
  unfold apply_body. destruct procedure; keeps_auto.
  apply keeps_apply_primitive.
Qed.

Lemma keeps_eval_body expr env : keeps (eval_body ev ap expr env).
Proof.
  unfold eval_body.
  repeat match goal with
         | |- keeps (if ?b then _ else _) => destruct b
         end;
    try first [apply keeps_raise | apply keeps_lookup | apply keeps_ret].
  apply keeps_bind; [apply keeps_lift|]. intros first.
  apply keeps_bind; [apply keeps_lift|]. intros rest.
  destruct (logic_form first) as [handler|] eqn:Hform.
  - apply keeps_bind; [apply (keeps_logic_form first); assumption|].
    intros expr'. apply Hev.
  - repeat match goal with
           | |- keeps (if ?b then _ else _) => destruct b
           end; try apply keeps_lift.
    + apply keeps_do_define_form.
    + apply keeps_bind; [apply keeps_do_let_form|]. intros [expr' env']. apply Hev.
    + apply keeps_bind; [apply Hev|]. intros procedure.
      apply keeps_bind; [apply keeps_pair_map | intros args; apply Hap].
Qed.

Variable loop : evaluator.
Hypothesis Hloop : forall expr env, keeps (loop expr env).

Lemma keeps_optimized_body expr env : keeps (optimized_body ev ap loop expr env).
Proof.
  unfold optimized_body.
  repeat match goal with
         | |- keeps (if ?b then _ else _) => destruct b
         end;
    try first [apply keeps_raise | apply keeps_lookup | apply keeps_ret].
  apply keeps_bind; [apply keeps_lift|]. intros first.
  apply keeps_bind; [apply keeps_lift|]. intros rest.
  destruct (logic_form first) as [handler|] eqn:Hform.
  - apply keeps_bind; [apply (keeps_logic_form first); assumption|].
    intros expr'. apply Hloop.
  - repeat match goal with
           | |- keeps (if ?b then _ else _) => destruct b
           end; try apply keeps_lift.
    + apply keeps_do_define_form.
    + apply keeps_bind; [apply keeps_do_let_form|].
      intros [expr' env']. apply Hloop.
    + apply keeps_bind; [apply Hev|]. intros procedure.
      apply keeps_bind; [apply keeps_pair_map|]. intros args.
      destruct procedure; keeps_auto. apply keeps_apply_primitive.
Qed.
End Keeps.

(** X5: provided the host primitives never remove a frame nor change the
    parent of a frame, neither does the evaluator: whatever [scheme_eval],
    [scheme_apply] or [scheme_optimized_eval] returns or raises, the final
    store has all the frames of the initial one, with the same parents. *)
Theorem evaluation_keeps_frames `{Host} (budget : nat) :
  (forall name args env, keeps (host_call name args env)) ->
  (forall expr env, keeps (scheme_eval budget expr env))
  /\ (forall procedure args env, keeps (scheme_apply budget procedure args env))
  /\ (forall expr env, keeps (scheme_optimized_eval budget expr env)).
Proof.
  intros Hhost.
  induction budget as [|budget (IHev & IHap & IHopt)].
  - split; [|split]; [intros expr env|intros procedure args env|intros expr env];
      apply keeps_diverge.
  - split; [|split].
    + intros expr env. apply keeps_eval_body; assumption.
    + intros procedure args env. apply keeps_apply_body; assumption.
    + intros expr env. apply keeps_optimized_body; assumption.
Qed.

Lemma evaluation_keeps_frames_witness :
  exists h' r,
    scheme_eval (H := no_primitives) 12 tail_loop 0 global_only = Some (h', r)
    /\ store_grows global_only h'.
Proof.
  eexists _, _. split; [vm_compute; reflexivity|].
  refine (proj1 (evaluation_keeps_frames (H := no_primitives) 12 _)
            tail_loop 0 global_only _ _ _).
  - intros name args env. apply keeps_raise.
  - vm_compute. reflexivity.
Defined.

(** ** Validators and list conversion *)

(** X7: [check_form] accepts exactly the well-formed lists whose length is
    at least [min] and, when a maximum is given, at most that maximum; it
    rejects anything that is not a well-formed list with
    [BadlyFormedExpression], a list that is too short with
    [TooFewOperands] and a list that is too long with [TooManyOperands]. *)
Theorem check_form_accepts (expr : value) (min : nat) (max : option nat) :
  (check_form expr min max = inr tt
   <-> exists l, expr = scheme_list l /\ min <= length l
                 /\ forall m, max = Some m -> length l <= m)
  /\ (scheme_listp expr = false ->
      check_form expr min max = inl (SchemeError (BadlyFormedExpression expr)))
  /\ (forall l, expr = scheme_list l -> length l < min ->
        check_form expr min max = inl (SchemeError TooFewOperands))
  /\ (forall l m, expr = scheme_list l -> min <= length l -> max = Some m ->
        m < length l ->
        check_form expr min max = inl (SchemeError TooManyOperands)).
Proof.
  split; [split|split; [|split]].
  - intros Hcf.
    destruct (scheme_listp_items expr (check_form_listp _ _ _ Hcf)) as [l ->].
    exists l. split; [reflexivity|]. rewrite check_form_scheme_list in Hcf.
    destruct (Nat.ltb_spec (length l) min); [discriminate|]. split; [lia|].
    intros m ->. destruct (Nat.ltb_spec m (length l)); [discriminate | lia].
  - intros (l & -> & Hmin & Hmax). rewrite check_form_scheme_list.
    destruct (Nat.ltb_spec (length l) min); [lia|].
    destruct max as [m|]; [|reflexivity].
    specialize (Hmax m eq_refl).
    destruct (Nat.ltb_spec m (length l)); [lia | reflexivity].
  - intros Hl. unfold check_form. rewrite Hl. reflexivity.
  - intros l -> Hlen. rewrite check_form_scheme_list.
    destruct (Nat.ltb_spec (length l) min); [reflexivity | lia].
  - intros l m -> Hmin -> Hmax. rewrite check_form_scheme_list.
    destruct (Nat.ltb_spec (length l) min); [lia|].
    destruct (Nat.ltb_spec m (length l)); [reflexivity | lia].
Qed.

Lemma check_formals_from_inv (done : list value) (formals : value) :
  symbols done -> NoDup done ->
  check_formals_from (names done) formals = inr tt ->
  exists l, formals = scheme_list l /\ symbols (done ++ l) /\ NoDup (done ++ l).
Proof.
  revert done. induction formals; intros done Hsym Hnd; cbn; try discriminate.
  - intros _. exists []. rewrite app_nil_r. auto.
  - destruct (in_set formals1 (names done)) as [e|[|]] eqn:Hin;
      cbn [rbind]; [discriminate | discriminate |].
    destruct (scheme_symbolp formals1) eqn:Hfirst; [|discriminate]. cbn [negb].
    rewrite set_add_names by assumption. intros Hrest.
    assert (Hnotin : formals1 ∉ done).
    { intros Hel. apply (in_set_names done formals1 Hsym) in Hel. congruence. }
    destruct (IHformals2 (done ++ [formals1])) as (l & -> & Hsym' & Hnd').
    + apply Forall_app. split; [assumption | repeat constructor; assumption].
    + apply NoDup_app. split; [assumption|]. split; [|apply NoDup_singleton].
      intros x Hx Hx1. apply list_elem_of_singleton in Hx1. subst x. auto.
    + assumption.
    + exists (formals1 :: l). rewrite <- app_assoc in Hsym', Hnd'. auto.
Qed.

(** X8: [check_formals] succeeds exactly on the well-formed lists of
    pairwise distinct symbols. *)
Theorem check_formals_accepts (formals : value) :
  check_formals formals = inr tt
  <-> exists l, formals = scheme_list l /\ symbols l /\ NoDup l.
Proof.
  split.
  - intros Hcf. apply (check_formals_from_inv [] formals); [constructor | constructor |].
    exact Hcf.
  - intros (l & -> & Hsym & Hnd). unfold check_formals.
    rewrite <- scheme_list_onto_nil.
    change (∅ : gset string) with (names []).
    rewrite (check_formals_from_prefix [] l Nil); [reflexivity | | ]; assumption.
Qed.

(** X9: [list_from_pair] and the construction of a Scheme list are inverse
    to each other: it returns the host list [l] exactly on the Scheme list
    of [l], and it raises, with a host [AttributeError], exactly on the
    values that are not well-formed lists. *)
Theorem list_from_pair_inverse (p : value) :
  (forall l, list_from_pair p = inr l <-> p = scheme_list l)
  /\ (forall e, list_from_pair p = inl e ->
        e = AttributeError /\ scheme_listp p = false)
  /\ (scheme_listp p = false -> list_from_pair p = inl AttributeError).
Proof.
  induction p; cbn;
    try (split; [intros l; split; [discriminate | destruct l; discriminate]
                |split; [intros e [= <-]; auto | reflexivity]]).
  - split; [|split; [discriminate | discriminate]].
    intros l. split; [intros [= <-]; reflexivity | destruct l; [reflexivity | discriminate]].
  - destruct IHp2 as (Hinr & Hinl & Hnot). split; [|split].
    + intros l. destruct (list_from_pair p2) as [e|l2] eqn:E; cbn.
      * split; [discriminate|]. destruct l as [|x l]; [discriminate|].
        cbn. intros [= -> Hp2]. apply (Hinr l) in Hp2. discriminate.
      * split.
        -- intros [= <-]. cbn. f_equal. apply (Hinr l2). reflexivity.
        -- destruct l as [|x l]; [discriminate|]. cbn. intros [= -> Hp2].
           apply (Hinr l) in Hp2. congruence.
    + intros e. destruct (list_from_pair p2) as [e2|l2]; cbn; [|discriminate].
      intros [= <-]. apply (Hinl e2 eq_refl).
    + intros Hl. rewrite (Hnot Hl). reflexivity.
Qed.

(** ** Literals and ill-formed expressions *)

Lemma eval_body_literal `{Host} ev ap expr env h :
  literal expr = true -> eval_body ev ap expr env h = Some (h, inr expr).
Proof.
  intros Hl. unfold eval_body.
  destruct expr as [| b | z | s | | | | | |]; try discriminate;
    try (unfold scheme_atomp; cbn; rewrite ?andb_false_r; reflexivity).
  assert (Hs : scheme_stringp (PyStr s) = true).
  { unfold literal in Hl. cbn [scheme_booleanp scheme_numberp is_okay orb] in Hl.
    rewrite orb_false_r in Hl. exact Hl. }
  cbn [is_none scheme_symbolp]. rewrite Hs, orb_true_r. reflexivity.
Qed.

Lemma optimized_body_literal `{Host} ev ap loop expr env h :
  literal expr = true -> optimized_body ev ap loop expr env h = Some (h, inr expr).
Proof.
  intros Hl. unfold optimized_body.
  destruct expr as [| b | z | s | | | | | |]; try discriminate;
    try (unfold scheme_atomp; cbn; rewrite ?andb_false_r; reflexivity).
  assert (Hs : scheme_stringp (PyStr s) = true).
  { unfold literal in Hl. cbn [scheme_booleanp scheme_numberp is_okay orb] in Hl.
    rewrite orb_false_r in Hl. exact Hl. }
  cbn [is_none scheme_symbolp]. rewrite Hs, orb_true_r. reflexivity.
Qed.

(** X10: a boolean, a number, a Scheme string and the value [okay]
    evaluate to themselves under both evaluators, in every environment and
    without touching the store.  The undefined expression fails with
    [UndefinedExpression]; a pair that is not a well-formed list, and a
    procedure object used as an expression, fail with
    [MalformedExpression]. *)
Theorem literals_self_evaluate `{Host} (budget : nat) (expr : value) (env : loc)
    (h : store) :
  (literal expr = true ->
     scheme_eval (S budget) expr env h = Some (h, inr expr)
     /\ scheme_optimized_eval (S budget) expr env h = Some (h, inr expr))
  /\ scheme_eval (S budget) PyNone env h
     = Some (h, inl (SchemeError UndefinedExpression))
  /\ (scheme_listp expr = false ->
      match expr with
      | Pair _ _ | PrimitiveProcedure _ | LambdaProcedure _ _ _
      | MuProcedure _ _ => true
      | _ => false
      end = true ->
      scheme_eval (S budget) expr env h
      = Some (h, inl (SchemeError (MalformedExpression expr)))
      /\ scheme_optimized_eval (S budget) expr env h
         = Some (h, inl (SchemeError (MalformedExpression expr)))).
Proof.
  split; [|split].
  - intros Hl. split; [apply eval_body_literal | apply optimized_body_literal];
      assumption.
  - reflexivity.
  - intros Hl Hshape.
    destruct expr; try discriminate; cbn [scheme_eval scheme_optimized_eval];
      unfold eval_body, optimized_body, scheme_atomp;
      cbn [is_none scheme_symbolp scheme_booleanp scheme_numberp scheme_nullp
           scheme_stringp is_okay orb andb];
      rewrite andb_false_r, Hl; split; reflexivity.
Qed.

Lemma literals_self_evaluate_witness :
  scheme_eval (H := no_primitives) 1 (PyStr (String dquote "text")) 7 []
  = Some ([], inr (PyStr (String dquote "text")))
  /\ scheme_eval (H := no_primitives) 1 (Pair (PyInt 1) (PyInt 2)) 0 global_only
     = Some (global_only,
             inl (SchemeError (MalformedExpression (Pair (PyInt 1) (PyInt 2))))).
Proof.
  split.
  - apply (proj1 (literals_self_evaluate (H := no_primitives) 0
                    (PyStr (String dquote "text")) 7 [])).
    reflexivity.
  - apply (proj2 (proj2 (literals_self_evaluate (H := no_primitives) 0
                           (Pair (PyInt 1) (PyInt 2)) 0 global_only)));
      reflexivity.
Defined.

(** ** The conditional *)

Lemma do_if_form_test ev env test conseq rest v h h1 :
  length rest <= 1 -> ev test env h = Some (h1, inr v) ->
  do_if_form ev (scheme_list (test :: conseq :: rest)) env h
  = Some (h1, inr (if scheme_true v then conseq
                   else match rest with [] => Okay | alt :: _ => alt end)).
Proof.
  intros Hrest Htest. unfold do_if_form. rewrite check_form_scheme_list.
  destruct rest as [|alt [|x rest]]; [| |cbn in Hrest; lia];
    cbn [length Nat.ltb Nat.leb]; rewrite bind_lift_inr;
    cbn [scheme_list py_getitem pair_getitem]; rewrite bind_lift_inr;
    rewrite (bind_inr _ _ _ _ _ Htest); destruct (scheme_true v); reflexivity.
Qed.

(** X11: an [if] form takes two or three operands.  It evaluates the test;
    when the test gives a true value the form is worth whatever the
    consequent is worth in the store the test left, and the alternative is
    not evaluated; when the test gives false the form is worth whatever the
    alternative is worth, and the value [okay] when there is no
    alternative. *)
Theorem if_form_branches `{Host} (budget : nat) (env : loc) (h : store) :
  let ev := scheme_eval (S budget) in
  let run := fun expr => scheme_eval (S (S budget)) expr env h in
  (forall test conseq rest v h1,
     length rest <= 1 ->
     ev test env h = Some (h1, inr v) -> scheme_true v = true ->
     run (form "if" (test :: conseq :: rest)) = ev conseq env h1)
  /\ (forall test conseq alt h1,
        ev test env h = Some (h1, inr (PyBool false)) ->
        run (form "if" [test; conseq; alt]) = ev alt env h1)
  /\ (forall test conseq h1,
        ev test env h = Some (h1, inr (PyBool false)) ->
        run (form "if" [test; conseq]) = Some (h1, inr Okay))
  /\ (forall operands, length operands < 2 ->
        run (form "if" operands) = Some (h, inl (SchemeError TooFewOperands)))
  /\ (forall operands, 3 < length operands ->
        run (form "if" operands) = Some (h, inl (SchemeError TooManyOperands))).
Proof.
  intros ev run.
  assert (Hif : forall es, run (form "if" es)
    = (do expr <- do_if_form ev (scheme_list es) env in ev expr env) h)
    by (intros es; apply eval_body_logic_form; reflexivity).
  split; [|split; [|split; [|split]]].
  - intros test conseq rest v h1 Hrest Htest Hv. rewrite Hif.
    rewrite (bind_inr _ _ _ _ _ (do_if_form_test _ _ _ conseq rest _ _ _ Hrest Htest)).
    rewrite Hv. reflexivity.
  - intros test conseq alt h1 Htest. rewrite Hif.
    rewrite (bind_inr _ _ _ _ _
               (do_if_form_test _ _ _ conseq [alt] _ _ _ (le_n 1) Htest)).
    reflexivity.
  - intros test conseq h1 Htest. rewrite Hif.
    rewrite (bind_inr _ _ _ _ _
               (do_if_form_test _ _ _ conseq [] _ _ _ (Nat.le_0_l 1) Htest)).
    apply eval_body_literal. reflexivity.
  - intros operands Hlen. rewrite Hif. apply bind_inl.
    unfold do_if_form. apply bind_inl. unfold lift.
    rewrite check_form_scheme_list.
    destruct (Nat.ltb_spec (length operands) 2); [reflexivity | lia].
  - intros operands Hlen. rewrite Hif. apply bind_inl.
    unfold do_if_form. apply bind_inl. unfold lift.
    rewrite check_form_scheme_list.
    destruct (Nat.ltb_spec (length operands) 2); [lia|].
    destruct (Nat.ltb_spec 3 (length operands)); [reflexivity | lia].
Qed.

Lemma if_form_branches_witness :
  scheme_eval (H := no_primitives) 2
    (form "if" (PyInt 0 :: PyInt 1 :: [sym "unbound"])) 0 global_only
  = scheme_eval (H := no_primitives) 1 (PyInt 1) 0 global_only.
Proof.
  apply (proj1 (if_form_branches (H := no_primitives) 0 0 global_only)
           (PyInt 0) (PyInt 1) [sym "unbound"] (PyInt 0) global_only).
  - cbn. lia.
  - vm_compute. reflexivity.
  - reflexivity.
Defined.

(** ** Procedures *)

Lemma check_formals_distinct l :
  symbols l -> NoDup l -> check_formals (scheme_list l) = inr tt.
Proof.
  intros Hsym Hnd. unfold check_formals. rewrite <- scheme_list_onto_nil.
  change (∅ : gset string) with (names []).
  rewrite (check_formals_from_prefix [] l Nil); [reflexivity | | ]; assumption.
Qed.

Lemma eval_body_special `{Host} ev ap name rest env h :
  scheme_listp rest = true ->
  eval_body ev ap (Pair (PyStr name) rest) env h
  = (if String.eqb name "lambda" then lift (do_lambda_form rest env)
     else if String.eqb name "mu" then lift (do_mu_form rest)
     else if String.eqb name "define" then do_define_form ev rest env
     else if String.eqb name "quote" then lift (do_quote_form rest)
     else eval_body ev ap (Pair (PyStr name) rest) env) h.
Proof.
  intros Hrest.
  destruct (String.eqb_spec name "lambda") as [->|_];
    [unfold eval_body; cbn [is_none scheme_symbolp]; rewrite scheme_atomp_pair;
     cbn [scheme_stringp is_okay orb scheme_listp]; rewrite Hrest; reflexivity|].
  destruct (String.eqb_spec name "mu") as [->|_];
    [unfold eval_body; cbn [is_none scheme_symbolp]; rewrite scheme_atomp_pair;
     cbn [scheme_stringp is_okay orb scheme_listp]; rewrite Hrest; reflexivity|].
  destruct (String.eqb_spec name "define") as [->|_];
    [unfold eval_body; cbn [is_none scheme_symbolp]; rewrite scheme_atomp_pair;
     cbn [scheme_stringp is_okay orb scheme_listp]; rewrite Hrest; reflexivity|].
  destruct (String.eqb_spec name "quote") as [->|_];
    [unfold eval_body; cbn [is_none scheme_symbolp]; rewrite scheme_atomp_pair;
     cbn [scheme_stringp is_okay orb scheme_listp]; rewrite Hrest; reflexivity|].
  reflexivity.
Qed.

Lemma do_lambda_form_distinct fs body env :
  symbols fs -> NoDup fs -> body <> [] ->
  do_lambda_form (scheme_list (scheme_list fs :: body)) env
  = inr (LambdaProcedure (scheme_list fs) (procedure_body body) env).
Proof.
  intros Hsym Hnd Hbody. unfold do_lambda_form.
  rewrite check_form_scheme_list, py_len_scheme_list.
  destruct body as [|e [|e' body]]; [contradiction| |];
    cbn [length Nat.ltb Nat.leb Nat.eqb rbind scheme_list py_getitem
         pair_getitem attr_second];
    rewrite (check_formals_distinct fs Hsym Hnd); reflexivity.
Qed.

Lemma do_mu_form_distinct fs body :
  symbols fs -> NoDup fs -> body <> [] ->
  do_mu_form (scheme_list (scheme_list fs :: body))
  = inr (MuProcedure (scheme_list fs) (procedure_body body)).
Proof.
  intros Hsym Hnd Hbody. unfold do_mu_form.
  rewrite check_form_scheme_list, py_len_scheme_list.
  destruct body as [|e [|e' body]]; [contradiction| |];
    cbn [length Nat.ltb Nat.leb Nat.eqb rbind scheme_list py_getitem
         pair_getitem attr_second];
    rewrite (check_formals_distinct fs Hsym Hnd); reflexivity.
Qed.

(** X12: a [lambda] form whose first operand is a list of distinct symbols,
    followed by at least one body expression, evaluates to a
    [LambdaProcedure] with these formals that captures the environment of
    the form; a [mu] form gives a [MuProcedure], which captures none.  The
    body of the procedure is the body expression when there is one, and
    the body expressions wrapped in a [begin] form when there are several.
    Neither form changes the store; with fewer than two operands both
    fail. *)
Theorem lambda_mu_create `{Host} (budget : nat) (env : loc) (h : store)
    (fs body : list value) :
  symbols fs -> NoDup fs -> body <> [] ->
  scheme_eval (S budget) (form "lambda" (scheme_list fs :: body)) env h
  = Some (h, inr (LambdaProcedure (scheme_list fs) (procedure_body body) env))
  /\ scheme_eval (S budget) (form "mu" (scheme_list fs :: body)) env h
     = Some (h, inr (MuProcedure (scheme_list fs) (procedure_body body)))
  /\ scheme_eval (S budget) (form "lambda" [scheme_list fs]) env h
     = Some (h, inl (SchemeError TooFewOperands))
  /\ scheme_eval (S budget) (form "mu" [scheme_list fs]) env h
     = Some (h, inl (SchemeError TooFewOperands)).
Proof.
  intros Hsym Hnd Hbody. unfold form. rewrite !scheme_eval_S.
  rewrite !eval_body_special by apply scheme_listp_scheme_list.
  cbn [String.eqb Ascii.eqb Bool.eqb]. unfold lift.
  rewrite (do_lambda_form_distinct fs body env Hsym Hnd Hbody).
  rewrite (do_mu_form_distinct fs body Hsym Hnd Hbody).
  repeat split; reflexivity.
Qed.

Lemma lambda_mu_create_witness :
  scheme_eval (H := no_primitives) 1
    (form "lambda" [scheme_list [sym "a"; sym "b"]; sym "a"; sym "b"])
    0 global_only
  = Some (global_only,
          inr (LambdaProcedure (scheme_list [sym "a"; sym "b"])
                 (procedure_body [sym "a"; sym "b"]) 0)).
Proof.
  apply (lambda_mu_create (H := no_primitives) 0 0 global_only
           [sym "a"; sym "b"] [sym "a"; sym "b"]).
  - repeat constructor.
  - apply (bool_decide_unpack _). vm_compute. exact I.
  - discriminate.
Defined.

Lemma do_lambda_form_inv vals env procedure :
  do_lambda_form vals env = inr procedure ->
  exists fs body,
    procedure = LambdaProcedure (scheme_list fs) body env
    /\ symbols fs /\ NoDup fs.
Proof.
  unfold do_lambda_form.
  destruct (check_form vals 2 None) as [|[]]; [discriminate|]. cbn [rbind].
  destruct (py_getitem vals 0) as [|formals]; [discriminate|]. cbn [rbind].
  destruct (check_formals formals) as [|[]] eqn:Hcf; [discriminate|]. cbn [rbind].
  destruct (py_len vals) as [|n]; [discriminate|]. cbn [rbind].
  destruct (check_formals_from_inv [] formals (Forall_nil_2 _) (NoDup_nil_2) Hcf)
    as (fs & -> & Hsym & Hnd).
  destruct (if (n =? 2)%nat then _ else _) as [|body]; [discriminate|].
  cbn [rbind]. intros [= <-]. exists fs, body. auto.
Qed.

(** X13: a procedure made by [do_lambda_form] can only fail to be called
    for its number of arguments.  Its formals are distinct symbols;
    applied, from any environment, to as many arguments as it has formals,
    it evaluates its body in a new frame, child of the environment it
    captured, that binds the formals to the arguments; applied to any other
    number of arguments it fails with [ArityMismatch]. *)
Theorem closure_call_arity `{Host} (vals : value) (denv : loc) (procedure : value) :
  do_lambda_form vals denv = inr procedure ->
  exists fs body,
    procedure = LambdaProcedure (scheme_list fs) body denv
    /\ symbols fs /\ NoDup fs
    /\ forall budget vs env h,
         (length fs = length vs ->
          scheme_apply (S budget) procedure (scheme_list vs) env h
          = scheme_eval budget body (length h)
              (h ++ [mkFrame (bind_list fs vs ∅) (Some denv)]))
         /\ (length fs <> length vs ->
             exists h',
               scheme_apply (S budget) procedure (scheme_list vs) env h
               = Some (h', inl (SchemeError ArityMismatch))).
Proof.
  intros Hl. destruct (do_lambda_form_inv vals denv procedure Hl)
    as (fs & body & -> & Hsym & Hnd).
  exists fs, body. repeat split; try assumption.
  - intros Hlen. cbn [scheme_apply]. unfold apply_body.
    rewrite (bind_inr _ _ _ _ _ (make_call_frame_symbols denv fs vs h Hsym Hlen)).
    reflexivity.
  - intros Hlen. cbn [scheme_apply]. unfold apply_body, make_call_frame.
    destruct (bind_formals_mismatch (length h) fs vs
                (h ++ [mkFrame ∅ (Some denv)]) Hsym Hlen) as [h' Hb].
    exists h'. apply bind_inl.
    rewrite (bind_inr _ _ h (h ++ [mkFrame ∅ (Some denv)]) (length h)) by reflexivity.
    apply (bind_inl _ _ _ _ _ Hb).
Qed.

Lemma closure_call_arity_witness :
  exists fs body,
    LambdaProcedure (scheme_list [sym "a"]) (sym "a") 0
    = LambdaProcedure (scheme_list fs) body 0
    /\ symbols fs /\ NoDup fs
    /\ forall budget vs env h,
         (length fs = length vs ->
          scheme_apply (H := no_primitives) (S budget)
            (LambdaProcedure (scheme_list [sym "a"]) (sym "a") 0)
            (scheme_list vs) env h
          = scheme_eval (H := no_primitives) budget body (length h)
              (h ++ [mkFrame (bind_list fs vs ∅) (Some 0)]))
         /\ (length fs <> length vs ->
             exists h',
               scheme_apply (H := no_primitives) (S budget)
                 (LambdaProcedure (scheme_list [sym "a"]) (sym "a") 0)
                 (scheme_list vs) env h
               = Some (h', inl (SchemeError ArityMismatch))).
Proof.
  apply (closure_call_arity (H := no_primitives)
           (scheme_list [scheme_list [sym "a"]; sym "a"]) 0).
  vm_compute. reflexivity.
Defined.

(** X14: the shorthand [(define (name . formals) body ...)], for a symbol
    [name], does exactly what [(define name (lambda formals body ...))]
    does: the same binding in the same frame and the same result, or the
    same error. *)
Theorem define_shorthand `{Host} (budget : nat) (name formals : value)
    (body : list value) (env : loc) (h : store) :
  scheme_symbolp name = true ->
  do_define_form (scheme_eval (S budget))
    (scheme_list (Pair name formals :: body)) env h
  = do_define_form (scheme_eval (S budget))
      (scheme_list [name; Pair (PyStr "lambda") (Pair formals (scheme_list body))])
      env h.
Proof.
  intros Hname.
  assert (Hlam :
    scheme_eval (S budget)
      (Pair (PyStr "lambda") (Pair formals (scheme_list body))) env h
    = Some (h, do_lambda_form (Pair formals (scheme_list body)) env)).
  { rewrite scheme_eval_S, eval_body_special by apply scheme_listp_scheme_list.
    reflexivity. }
  destruct body as [|e body]; unfold do_define_form;
    rewrite !check_form_scheme_list;
    cbn [scheme_list py_getitem pair_getitem length Nat.ltb Nat.leb attr_second];
    rewrite !bind_lift_inr, ?Hname; cbn [scheme_symbolp]; rewrite ?bind_lift_inr.
  - rewrite (bind_inl _ _ _ _ _ Hlam). reflexivity.
  - rewrite bind_lift. cbn [scheme_list] in Hlam.
    destruct (do_lambda_form (Pair formals (Pair e (scheme_list body))) env)
      as [err|f] eqn:Hf.
    + rewrite (bind_inl _ _ _ _ _ Hlam). reflexivity.
    + rewrite (bind_inr _ _ _ _ _ Hlam). reflexivity.
Qed.

Lemma define_shorthand_witness :
  do_define_form (scheme_eval (H := no_primitives) 1)
    (scheme_list [Pair (sym "f") (scheme_list [sym "x"]); sym "x"]) 0 global_only
  = do_define_form (scheme_eval (H := no_primitives) 1)
      (scheme_list [sym "f";
                    Pair (PyStr "lambda")
                      (Pair (scheme_list [sym "x"]) (scheme_list [sym "x"]))])
      0 global_only.
Proof.
  apply (define_shorthand (H := no_primitives) 0 (sym "f")
           (scheme_list [sym "x"]) [sym "x"] 0 global_only).
  reflexivity.
Defined.

(** ** Applications *)

Lemma eval_body_application `{Host} ev ap operator rest env h :
  special_form_name operator = false -> scheme_listp rest = true ->
  eval_body ev ap (Pair operator rest) env h
  = (do procedure <- ev operator env in
     do args <- pair_map (fun operand => ev operand env) rest in
     ap procedure args env) h.
Proof.
  intros Hname Hrest. unfold special_form_name, special_form_names in Hname.
  cbn [existsb] in Hname.
  repeat match type of Hname with
         | (_ || _)%bool = false =>
             apply orb_false_elim in Hname as [? Hname]
         end.
  unfold eval_body. cbn [is_none scheme_symbolp]. rewrite scheme_atomp_pair.
  cbn [scheme_stringp is_okay orb scheme_listp]. rewrite Hrest.
  cbn [negb attr_first attr_second]. rewrite !bind_lift_inr.
  assert (Hlogic : logic_form operator = None).
  { destruct operator; try reflexivity. cbn [logic_form].
    destruct (scheme_symbolp (PyStr s)); [|reflexivity].
    unfold LOGIC_FORMS. cbn [eq_str] in *.
    repeat match goal with
           | E : String.eqb s ?n = false |- context [String.eqb s ?n] => rewrite E
           end.
    reflexivity. }
  rewrite Hlogic.
  repeat match goal with
         | E : eq_str operator ?n = false |- context [eq_str operator ?n] =>
             rewrite E
         end.
  reflexivity.
Qed.

Lemma pair_map_operands (ev : evaluator) env es h vs h' :
  eval_operands ev env es h vs h' ->
  pair_map (fun operand => ev operand env) (scheme_list es) h
  = Some (h', inr (scheme_list vs)).
Proof.
  induction 1 as [h|e es h v h1 vs h2 He Hes IH]; [reflexivity|].
  cbn [scheme_list pair_map]. rewrite (bind_inr _ _ _ _ _ He).
  destruct es; cbn [scheme_list] in *; rewrite (bind_inr _ _ _ _ _ IH); reflexivity.
Qed.

Lemma pair_map_raises (ev : evaluator) env pre e post h vs h1 h2 err :
  eval_operands ev env pre h vs h1 ->
  ev e env h1 = Some (h2, inl err) ->
  pair_map (fun operand => ev operand env) (scheme_list (pre ++ e :: post)) h
  = Some (h2, inl err).
Proof.
  intros Hpre He.
  induction Hpre as [h|e' es h v h1 vs h3 He' Hes IH].
  - cbn [app scheme_list pair_map]. apply (bind_inl _ _ _ _ _ He).
  - cbn [app scheme_list pair_map]. rewrite (bind_inr _ _ _ _ _ He').
    specialize (IH He).
    destruct (es ++ e :: post) eqn:Happ; [destruct es; discriminate|].
    cbn [scheme_list] in *. apply (bind_inl _ _ _ _ _ IH).
Qed.

(** X15: a list whose head is not the name of a special form is an
    application: the operator is evaluated first, then the operands from
    left to right, each in the store the one before left, and the value of
    the operator is applied to the list of the values of the operands.  An
    exception raised by an operand is the outcome of the application, and
    the operands after it are not evaluated; when the operator does not
    evaluate to a procedure the application fails with [NotCallable], after
    the operands have been evaluated. *)
Theorem application_order `{Host} (budget : nat) (env : loc) (h : store)
    (operator : value) :
  let ev := scheme_eval (S budget) in
  let run := fun expr => scheme_eval (S (S budget)) expr env h in
  special_form_name operator = false ->
  (forall procedure operands vs h0 h1,
     ev operator env h = Some (h0, inr procedure) ->
     eval_operands ev env operands h0 vs h1 ->
     run (Pair operator (scheme_list operands))
     = scheme_apply (S budget) procedure (scheme_list vs) env h1
     /\ (is_procedure procedure = false ->
         run (Pair operator (scheme_list operands))
         = Some (h1, inl (SchemeError (NotCallable procedure)))))
  /\ (forall procedure pre e post vs h0 h1 h2 err,
        ev operator env h = Some (h0, inr procedure) ->
        eval_operands ev env pre h0 vs h1 ->
        ev e env h1 = Some (h2, inl err) ->
        run (Pair operator (scheme_list (pre ++ e :: post)))
        = Some (h2, inl err)).
Proof.
  intros ev run Hname.
  assert (Happ : forall operands,
    run (Pair operator (scheme_list operands))
    = (do procedure <- ev operator env in
       do args <- pair_map (fun operand => ev operand env) (scheme_list operands) in
       scheme_apply (S budget) procedure args env) h).
  { intros operands. apply eval_body_application;
      [assumption | apply scheme_listp_scheme_list]. }
  split.
  - intros procedure operands vs h0 h1 Hop Hargs.
    assert (Hrun : run (Pair operator (scheme_list operands))
                   = scheme_apply (S budget) procedure (scheme_list vs) env h1).
    { rewrite Happ, (bind_inr _ _ _ _ _ Hop).
      rewrite (bind_inr _ _ _ _ _ (pair_map_operands _ _ _ _ _ _ Hargs)).
      reflexivity. }
    split; [exact Hrun|]. intros Hproc. rewrite Hrun.
    destruct procedure; try discriminate; reflexivity.
  - intros procedure pre e post vs h0 h1 h2 err Hop Hpre He.
    rewrite Happ, (bind_inr _ _ _ _ _ Hop).
    apply bind_inl. apply (pair_map_raises _ _ _ _ _ _ _ _ _ _ Hpre He).
Qed.

Lemma application_order_witness :
  scheme_eval (H := no_primitives) 3
    (Pair (PyInt 1)
       (scheme_list [form "define" [sym "x"; PyInt 2]])) 0 global_only
  = Some ([mkFrame {[ "x" := PyInt 2 ]} None],
          inl (SchemeError (NotCallable (PyInt 1)))).
Proof.
  refine (proj2 (proj1 (application_order (H := no_primitives) 1 0 global_only
                          (PyInt 1) eq_refl)
                   (PyInt 1) [form "define" [sym "x"; PyInt 2]] [sym "x"]
                   global_only [mkFrame {[ "x" := PyInt 2 ]} None] _ _)
            eq_refl).
  - vm_compute. reflexivity.
  - eapply eval_operands_cons; [vm_compute; reflexivity | apply eval_operands_nil].
Defined.

Lemma list_from_pair_inv (p : value) :
  (forall l, list_from_pair p = inr l -> p = scheme_list l)
  /\ (forall e, list_from_pair p = inl e -> e = AttributeError).
Proof.
  induction p; cbn;
    try (split; [discriminate | intros e [= <-]; reflexivity]).
  - split; [intros l [= <-]; reflexivity | discriminate].
  - destruct IHp2 as [Hinr Hinl].
    destruct (list_from_pair p2) as [e2|l2]; cbn.
    + split; [discriminate | intros e [= <-]; apply Hinl; reflexivity].
    + split; [|discriminate]. intros l [= <-]. cbn. f_equal. apply Hinr. reflexivity.
Qed.

(** ** Primitives *)

(** X16: no host [TypeError] leaves [apply_primitive]: one raised by the
    call of the primitive comes out as the [SchemeError] [CallError].  The
    primitives [eval] and [apply] of the global frame take exactly one and
    exactly two arguments; called with any other number of arguments they
    fail with [CallError], and the store is unchanged. *)
Theorem primitive_type_errors `{Host} (ev : evaluator) (ap : applier)
    (fn : py_fn) (args : value) (env : loc) (h : store) :
  (forall h' e,
     apply_primitive ev ap fn args env h = Some (h', inl e) -> e <> TypeError)
  /\ (forall vs, length vs <> 1 ->
        apply_primitive ev ap fn_scheme_eval (scheme_list vs) env h
        = Some (h, inl (SchemeError CallError)))
  /\ (forall vs, length vs <> 2 ->
        apply_primitive ev ap fn_scheme_apply (scheme_list vs) env h
        = Some (h, inl (SchemeError CallError)))
  /\ (forall expr,
        ev expr env h = Some (h, inl TypeError) ->
        apply_primitive ev ap fn_scheme_eval (scheme_list [expr]) env h
        = Some (h, inl (SchemeError CallError))).
Proof.
  split; [|split; [|split]].
  - intros h' e. unfold apply_primitive. rewrite bind_lift.
    destruct (list_from_pair args) as [e0|l] eqn:Hl.
    + intros [= <- <-].
      rewrite (proj2 (list_from_pair_inv args) e0 Hl).
      discriminate.
    + unfold except_type_error.
      destruct (call_fn _ _ _ _ _ h) as [[h1 [[]|]]|]; intros [= <- <-];
        discriminate.
  - intros vs Hlen. unfold apply_primitive.
    rewrite list_from_pair_scheme_list, bind_lift_inr.
    destruct vs as [|x [|y vs]]; [reflexivity | cbn in Hlen; lia | reflexivity].
  - intros vs Hlen. unfold apply_primitive.
    rewrite list_from_pair_scheme_list, bind_lift_inr.
    destruct vs as [|x [|y [|z vs]]];
      [reflexivity | reflexivity | cbn in Hlen; lia | reflexivity].
  - intros expr Hev. unfold apply_primitive.
    rewrite list_from_pair_scheme_list, bind_lift_inr.
    unfold except_type_error. cbn [call_fn use_env]. rewrite Hev. reflexivity.
Qed.

Lemma primitive_type_errors_witness :
  apply_primitive (H := no_primitives) (scheme_eval (H := no_primitives) 2)
    (scheme_apply (H := no_primitives) 2) fn_scheme_eval
    (scheme_list [form "let" [scheme_list [PyInt 5]; PyInt 1]]) 0 global_only
  = Some (global_only ++ [mkFrame ∅ (Some 0)], inl (SchemeError CallError))
  /\ SchemeError CallError <> TypeError.
Proof.
  split; [vm_compute; reflexivity|].
  apply (proj1 (primitive_type_errors (H := no_primitives)
                  (scheme_eval (H := no_primitives) 2)
                  (scheme_apply (H := no_primitives) 2) fn_scheme_eval
                  (scheme_list [form "let" [scheme_list [PyInt 5]; PyInt 1]])
                  0 global_only)
           (global_only ++ [mkFrame ∅ (Some 0)])).
  vm_compute. reflexivity.
Defined.

(** ** The clauses of cond *)

Lemma do_cond_form_match ev env pre test body post h h1 h2 v :
  clauses_fail ev env pre h h1 -> eq_str test "else" = false ->
  ev test env h1 = Some (h2, inr v) -> scheme_true v = true ->
  do_cond_form ev (scheme_list (pre ++ Pair test (scheme_list body) :: post)) env h
  = Some (h2, inr (match body with
                   | [] => quote v
                   | [expr] => expr
                   | _ => Pair (PyStr "begin") (scheme_list body)
                   end)).
Proof.
  intros Hpre Helse Htest Hv. unfold do_cond_form.
  rewrite py_len_scheme_list, py_iter_scheme_list, !bind_lift_inr.
  rewrite (cond_loop_skip _ _ _ 0 pre _ h h1 Hpre).
  cbn [Nat.add cond_loop]. rewrite check_form_clause.
  cbn [attr_first attr_second]. rewrite !bind_lift_inr, Helse.
  rewrite (bind_inr _ _ _ _ _ Htest), Hv.
  rewrite py_len_scheme_list, bind_lift_inr.
  destruct body as [|expr [|expr' body]]; reflexivity.
Qed.

Lemma do_cond_form_none ev env clauses h h1 :
  clauses_fail ev env clauses h h1 ->
  do_cond_form ev (scheme_list clauses) env h = Some (h1, inr Okay).
Proof.
  intros Hfail. unfold do_cond_form.
  rewrite py_len_scheme_list, py_iter_scheme_list, !bind_lift_inr.
  rewrite <- (app_nil_r clauses) at 2.
  rewrite (cond_loop_skip _ _ _ 0 clauses [] h h1 Hfail). reflexivity.
Qed.

(** X17: a [cond] form tries its clauses in order and stops at the first
    clause whose test gives a true value, in the store the tests left: a
    clause with no expression gives the value of its test, a clause with
    one expression is worth what that expression is worth, a clause with
    several is worth what the [begin] form of its expressions is worth.
    The clauses after it are not looked at.  A final [else] clause with a
    body is such a clause whose test is true; when every test gives false
    the form is worth the value [okay]. *)
Theorem cond_first_match `{Host} (budget : nat) (env : loc) (h : store) :
  let ev := scheme_eval (S budget) in
  let run := fun expr => scheme_eval (S (S budget)) expr env h in
  (forall pre test body post h1 h2 v,
     clauses_fail ev env pre h h1 -> eq_str test "else" = false ->
     ev test env h1 = Some (h2, inr v) -> scheme_true v = true ->
     run (form "cond" (pre ++ Pair test (scheme_list body) :: post))
     = match body with
       | [] => Some (h2, inr v)
       | _ => ev (procedure_body body) env h2
       end)
  /\ (forall pre body h1,
        clauses_fail ev env pre h h1 -> body <> [] ->
        run (form "cond" (pre ++ [form "else" body]))
        = ev (procedure_body body) env h1)
  /\ (forall clauses h1,
        clauses_fail ev env clauses h h1 ->
        run (form "cond" clauses) = Some (h1, inr Okay)).
Proof.
  intros ev run.
  assert (Hcond : forall es, run (form "cond" es)
    = (do expr <- do_cond_form ev (scheme_list es) env in ev expr env) h)
    by (intros es; apply eval_body_logic_form; reflexivity).
  split; [|split].
  - intros pre test body post h1 h2 v Hpre Helse Htest Hv. rewrite Hcond.
    rewrite (bind_inr _ _ _ _ _
               (do_cond_form_match _ _ _ _ body post _ _ _ _ Hpre Helse Htest Hv)).
    destruct body as [|expr [|expr' body]];
      [apply scheme_eval_quote | reflexivity | reflexivity].
  - intros pre body h1 Hpre Hbody. rewrite Hcond.
    destruct body as [|expr body]; [contradiction|].
    rewrite (bind_inr _ _ h h1 (procedure_body (expr :: body))); [reflexivity|].
    rewrite (do_cond_form_else _ _ _ (expr :: body) [] _ _ Hpre).
    destruct body; reflexivity.
  - intros clauses h1 Hfail. rewrite Hcond.
    rewrite (bind_inr _ _ _ _ _ (do_cond_form_none _ _ _ _ _ Hfail)).
    apply eval_body_literal. reflexivity.
Qed.

Lemma cond_first_match_witness :
  scheme_eval (H := no_primitives) 2
    (form "cond" ([scheme_list [PyBool false; sym "unbound"]]
                    ++ Pair (PyInt 7) (scheme_list [])
                    :: [scheme_list [sym "unbound"]])) 0 global_only
  = Some (global_only, inr (PyInt 7)).
Proof.
  refine (proj1 (cond_first_match (H := no_primitives) 0 0 global_only)
            [scheme_list [PyBool false; sym "unbound"]] (PyInt 7) []
            [scheme_list [sym "unbound"]] global_only global_only (PyInt 7)
            _ eq_refl _ eq_refl).
  - apply (clauses_fail_cons _ _ (PyBool false) [sym "unbound"] [] _ global_only);
      [reflexivity | vm_compute; reflexivity | apply clauses_fail_nil].
  - vm_compute. reflexivity.
Defined.

(** ** Closures share their frame *)

Lemma lookup_defined (h : store) self fr s val :
  h !! self = Some fr ->
  lookup self s (alter (set_binding s val) self h)
  = Some (alter (set_binding s val) self h, inr val).
Proof.
  intros Hfr. unfold lookup. rewrite length_alter.
  destruct (length h) as [|n] eqn:Hn.
  - apply lookup_lt_Some in Hfr. lia.
  - cbn [lookup_walk]. rewrite list_lookup_alter_eq, Hfr.
    cbn [fmap option_fmap option_map set_binding bindings].
    rewrite lookup_insert_eq. reflexivity.
Qed.

(** X18: a closure does not copy the frame it captured.  When a name is
    defined in that frame after the closure was made, a call of the
    closure whose body is that name (and which has no formal of that name)
    returns the newly defined value, from whatever environment it is
    called. *)
Theorem closure_sees_later_definitions `{Host} (budget : nat) (h : store)
    (penv env : loc) (fr : Frame) (x : string) (val : value)
    (fs vs : list value) :
  h !! penv = Some fr ->
  scheme_symbolp (PyStr x) = true ->
  symbols fs -> length fs = length vs -> PyStr x ∉ fs ->
  exists h',
    define penv (PyStr x) val h = Some (h', inr tt)
    /\ scheme_apply (S (S budget))
         (LambdaProcedure (scheme_list fs) (PyStr x) penv)
         (scheme_list vs) env h'
       = Some (h' ++ [mkFrame (bind_list fs vs ∅) (Some penv)], inr val).
Proof.
  intros Hfr Hx Hsym Hlen Hnotin.
  exists (alter (set_binding x val) penv h).
  split; [apply (define_symbol penv (PyStr x) val h Hx)|].
  cbn [scheme_apply]. unfold apply_body.
  rewrite (bind_inr _ _ _ _ _ (make_call_frame_symbols penv fs vs _ Hsym Hlen)).
  rewrite scheme_eval_S, eval_body_symbol by assumption.
  apply (lookup_newest_parent _ _ x penv); [|reflexivity|].
  - cbn [bindings]. rewrite bind_list_notin by assumption. apply lookup_empty.
  - apply (lookup_defined h penv fr x val Hfr).
Qed.

Lemma closure_sees_later_definitions_witness :
  exists h',
    define 0 (sym "x") (PyInt 5) two_scopes = Some (h', inr tt)
    /\ scheme_apply (H := no_primitives) 2
         (LambdaProcedure (scheme_list [sym "a"]) (sym "x") 0)
         (scheme_list [PyInt 7]) 1 h'
       = Some (h' ++ [mkFrame (bind_list [sym "a"] [PyInt 7] ∅) (Some 0)],
               inr (PyInt 5)).
Proof.
  apply (closure_sees_later_definitions (H := no_primitives) 0 two_scopes 0 1
           _ "x" (PyInt 5) [sym "a"] [PyInt 7] eq_refl eq_refl).
  - repeat constructor.
  - reflexivity.
  - apply (bool_decide_unpack _). vm_compute. exact I.
Defined.

(** ** The primitives eval and apply *)

(** X19: in an environment where [eval] names the primitive that
    [create_global_frame] registers, [(eval (quote expr))] has the outcome
    of evaluating [expr] in the calling environment, and where [apply]
    names its primitive, [(apply (quote procedure) (quote args))] has the
    outcome of applying [procedure] to [args] there; in both cases a host
    [TypeError] of the inner computation comes out as [CallError]. *)
Theorem eval_apply_primitives `{Host} (budget : nat) (env : loc) (h : store) :
  (lookup env "eval" h = Some (h, inr (PrimitiveProcedure fn_scheme_eval)) ->
   forall expr,
     scheme_eval (S (S (S budget))) (scheme_list [sym "eval"; quote expr]) env h
     = except_type_error (scheme_eval (S budget) expr env) h)
  /\ (lookup env "apply" h = Some (h, inr (PrimitiveProcedure fn_scheme_apply)) ->
      forall procedure args,
        scheme_eval (S (S (S budget)))
          (scheme_list [sym "apply"; quote procedure; quote args]) env h
        = except_type_error (scheme_apply (S budget) procedure args env) h).
Proof.
  split.
  - intros Hl expr. rewrite scheme_eval_S.
    rewrite (eval_body_application _ _ (sym "eval") (scheme_list [quote expr]))
      by reflexivity.
    rewrite (bind_inr _ _ h h (PrimitiveProcedure fn_scheme_eval))
      by (rewrite scheme_eval_S; apply Hl).
    rewrite (bind_inr _ _ h h (scheme_list [expr])).
    + reflexivity.
    + apply (pair_map_operands _ _ [quote expr] h [expr] h).
      eapply eval_operands_cons; [apply scheme_eval_quote | apply eval_operands_nil].
  - intros Hl procedure args. rewrite scheme_eval_S.
    rewrite (eval_body_application _ _ (sym "apply")
               (scheme_list [quote procedure; quote args])) by reflexivity.
    rewrite (bind_inr _ _ h h (PrimitiveProcedure fn_scheme_apply))
      by (rewrite scheme_eval_S; apply Hl).
    rewrite (bind_inr _ _ h h (scheme_list [procedure; args])).
    + reflexivity.
    + apply (pair_map_operands _ _ [quote procedure; quote args] h
               [procedure; args] h).
      eapply eval_operands_cons; [apply scheme_eval_quote|].
      eapply eval_operands_cons; [apply scheme_eval_quote | apply eval_operands_nil].
Qed.

Lemma eval_apply_primitives_witness :
  scheme_eval (H := no_primitives) 3
    (scheme_list [sym "eval"; quote (form "and" [PyInt 1; PyInt 2])])
    0 eval_apply_only
  = except_type_error
      (scheme_eval (H := no_primitives) 1 (form "and" [PyInt 1; PyInt 2]) 0)
      eval_apply_only.
Proof.
  apply (proj1 (eval_apply_primitives (H := no_primitives) 0 0 eval_apply_only)).
  vm_compute. reflexivity.
Defined.

(** ** The body of let and the errors of its bindings *)

(** X20: the body of a [let] form runs in the new frame: with bindings of
    symbols to numbers, booleans and variables, the body expressions but
    the last are evaluated in order in the new child frame of [env], which
    binds each name to the outer value of its expression, and the form is
    worth what the last body expression is worth in that frame, in the
    store the others left. *)
Theorem let_body_sequence `{Host} (budget : nat) (env : loc) (h : store)
    (names exprs vals : list value) :
  symbols names -> length names = length exprs ->
  Forall2 (outer_value env h) exprs vals ->
  forall front last vs h1,
    eval_operands (scheme_eval (S budget)) (length h) front
      (h ++ [mkFrame (bind_list names vals ∅) (Some env)]) vs h1 ->
    scheme_eval (S (S budget))
      (form "let"
         (scheme_list
            (zip_with (fun name expr => scheme_list [name; expr]) names exprs)
          :: front ++ [last])) env h
    = scheme_eval (S budget) last (length h) h1.
Proof.
  intros Hsym Hlen Hvals front last vs h1 Hfront.
  rewrite scheme_eval_S, eval_body_let.
  rewrite (bind_inr _ _ h h1 (last, length h)); [reflexivity|].
  apply (do_let_form_bodies _ _ _ _ _ _ _ vs _
           (let_bindings_outer budget env h names exprs vals ∅ Hsym Hlen Hvals)
           Hfront).
Qed.

Lemma let_body_sequence_witness :
  scheme_eval (H := no_primitives) 3
    (form "let"
       (scheme_list
          (zip_with (fun name expr => scheme_list [name; expr])
             [sym "a"] [PyInt 1])
        :: [form "define" [sym "b"; PyInt 2]] ++ [sym "b"])) 0 global_only
  = scheme_eval (H := no_primitives) 2 (sym "b") 1
      (global_only ++ [mkFrame {[ "b" := PyInt 2; "a" := PyInt 1 ]} (Some 0)]).
Proof.
  apply (let_body_sequence (H := no_primitives) 1 0 global_only
           [sym "a"] [PyInt 1] [PyInt 1]
           ltac:(repeat constructor) eq_refl ltac:(repeat constructor)
           [form "define" [sym "b"; PyInt 2]] (sym "b") [sym "b"]).
  eapply eval_operands_cons; [vm_compute; reflexivity | apply eval_operands_nil].
Defined.

(** X21: a [let] form with fewer than two operands fails with
    [TooFewOperands]; one whose first operand is not a well-formed list
    fails with [BadBindingsList]; in both cases the store is unchanged.  A
    binding whose name is not a symbol fails with [InvalidBindingTarget],
    after its value expression has been evaluated in the outer environment
    and before any later binding is looked at. *)
Theorem let_form_errors `{Host} (budget : nat) (env : loc) (h : store) :
  let ev := scheme_eval (S budget) in
  let run := fun expr => scheme_eval (S (S budget)) expr env h in
  (forall operands, length operands < 2 ->
     run (form "let" operands) = Some (h, inl (SchemeError TooFewOperands)))
  /\ (forall bindings bodies, scheme_listp bindings = false -> bodies <> [] ->
        run (form "let" (bindings :: bodies))
        = Some (h, inl (SchemeError BadBindingsList)))
  /\ (forall name expr rest bodies v h1,
        scheme_symbolp name = false -> bodies <> [] ->
        ev expr env (h ++ [mkFrame ∅ (Some env)]) = Some (h1, inr v) ->
        run (form "let" (scheme_list (scheme_list [name; expr] :: rest) :: bodies))
        = Some (h1, inl (SchemeError (InvalidBindingTarget name)))).
Proof.
  intros ev run. split; [|split].
  - intros operands Hlen. unfold run. rewrite scheme_eval_S, eval_body_let.
    apply bind_inl. unfold do_let_form. apply bind_inl. unfold lift.
    rewrite check_form_scheme_list.
    destruct (Nat.ltb_spec (length operands) 2); [reflexivity | lia].
  - intros bindings bodies Hb Hbodies. unfold run.
    rewrite scheme_eval_S, eval_body_let. apply bind_inl.
    unfold do_let_form. rewrite check_form_scheme_list.
    destruct bodies as [|body bodies]; [contradiction|].
    cbn [length Nat.ltb Nat.leb]. rewrite bind_lift_inr.
    cbn [scheme_list py_getitem pair_getitem attr_second]. rewrite !bind_lift_inr.
    rewrite Hb. reflexivity.
  - intros name expr rest bodies v h1 Hname Hbodies Hexpr. unfold run.
    rewrite scheme_eval_S, eval_body_let. apply bind_inl.
    apply do_let_form_binding_raises; [assumption|].
    cbn [let_bindings].
    change (py_getitem (scheme_list [name; expr]) 0) with (@inr exn _ name).
    change (py_getitem (scheme_list [name; expr]) 1) with (@inr exn _ expr).
    rewrite !bind_lift_inr, (bind_inr _ _ _ _ _ Hexpr).
    apply bind_inl. apply define_not_symbol. assumption.
Qed.

Lemma let_form_errors_witness :
  scheme_eval (H := no_primitives) 2
    (form "let" (scheme_list (scheme_list [PyInt 1; PyInt 2]
                              :: [scheme_list [sym "y"; sym "unbound"]])
                 :: [sym "y"])) 0 global_only
  = Some (global_only ++ [mkFrame ∅ (Some 0)],
          inl (SchemeError (InvalidBindingTarget (PyInt 1)))).
Proof.
  apply (proj2 (proj2 (let_form_errors (H := no_primitives) 0 0 global_only))
           (PyInt 1) (PyInt 2) [scheme_list [sym "y"; sym "unbound"]]
           [sym "y"] (PyInt 2)).
  - reflexivity.
  - discriminate.
  - vm_compute. reflexivity.
Defined.

(** ** Exceptions of operands *)

Lemma begin_loop_raises ev env pre e post h vs h1 h2 err returned :
  eval_operands ev env pre h vs h1 ->
  ev e env h1 = Some (h2, inl err) ->
  begin_loop ev env (scheme_list (pre ++ e :: post)) returned h
  = Some (h2, inl err).
Proof.
  intros Hpre He. revert returned.
  induction Hpre as [h|e' es h v h1 vs h3 He' Hes IH]; intros returned.
  - cbn [app scheme_list begin_loop]. apply (bind_inl _ _ _ _ _ He).
  - cbn [app scheme_list begin_loop]. rewrite (bind_inr _ _ _ _ _ He').
    apply IH, He.
Qed.

Lemma and_loop_raises ev env done pre e post h vs h1 h2 err test :
  eval_operands ev env pre h vs h1 -> all_true vs ->
  ev e env h1 = Some (h2, inl err) ->
  and_loop ev (scheme_list (done ++ pre ++ e :: post)) env (length done)
    (length (pre ++ e :: post)) test h
  = Some (h2, inl err).
Proof.
  intros Hpre. revert done test.
  induction Hpre as [h|e' es h v h1 vs h3 He' Hes IH];
    intros done test Htrue He.
  - cbn [app length and_loop].
    rewrite py_getitem_middle, bind_lift_inr. apply (bind_inl _ _ _ _ _ He).
  - apply Forall_cons in Htrue as [Hv Htrue].
    cbn [app length and_loop].
    rewrite py_getitem_middle, bind_lift_inr.
    rewrite (bind_inr _ _ _ _ _ He'), (scheme_true_not_false v Hv).
    rewrite snoc_middle.
    replace (S (length done)) with (length (done ++ [e']))
      by (rewrite length_app; cbn; lia).
    apply IH; assumption.
Qed.

(** X22: an exception raised by an operand of [begin], [and] or [or] is
    the outcome of the form, with the store that operand left, and the
    operands after it are not evaluated: for [begin] after any operands
    that returned, for [and] after operands that gave true values, for
    [or] after operands that gave false. *)
Theorem operand_exceptions_propagate `{Host} (budget : nat) (env : loc)
    (h : store) (pre : list value) (e : value) (post vs : list value)
    (h1 h2 : store) (err : exn) :
  let ev := scheme_eval (S budget) in
  let run := fun expr => scheme_eval (S (S budget)) expr env h in
  eval_operands ev env pre h vs h1 ->
  ev e env h1 = Some (h2, inl err) ->
  run (form "begin" (pre ++ e :: post)) = Some (h2, inl err)
  /\ (all_true vs -> run (form "and" (pre ++ e :: post)) = Some (h2, inl err))
  /\ (all_false vs -> run (form "or" (pre ++ e :: post)) = Some (h2, inl err)).
Proof.
  intros ev run Hpre He. subst ev run. cbv beta. split; [|split].
  - rewrite scheme_eval_S.
    rewrite (eval_body_logic_form _ _ "begin" do_begin_form) by reflexivity.
    apply bind_inl. unfold do_begin_form. rewrite check_form_scheme_list.
    replace (length (pre ++ e :: post) <? 1)%nat with false
      by (symmetry; apply Nat.ltb_ge; rewrite length_app; cbn; lia).
    rewrite bind_lift_inr.
    apply (begin_loop_raises _ _ _ _ _ _ _ _ _ _ _ Hpre He).
  - intros Htrue. rewrite scheme_eval_S.
    rewrite (eval_body_logic_form _ _ "and" do_and_form) by reflexivity.
    apply bind_inl. unfold do_and_form.
    rewrite py_len_scheme_list, bind_lift_inr.
    destruct (length (pre ++ e :: post)) eqn:Hlen.
    + rewrite length_app in Hlen. cbn in Hlen. lia.
    + cbn [Nat.eqb]. rewrite <- Hlen.
      apply (and_loop_raises _ _ [] pre e post h vs h1 h2 err PyNone Hpre Htrue He).
  - intros Hfalse. rewrite scheme_eval_S.
    rewrite (eval_body_logic_form _ _ "or" do_or_form) by reflexivity.
    destruct post as [|e' post].
    + rewrite (bind_inr _ _ _ _ _ (do_or_form_last _ _ _ _ _ _ _ Hpre Hfalse)).
      exact He.
    + apply bind_inl. unfold do_or_form.
      rewrite py_len_scheme_list, bind_lift_inr, length_app. cbn [length].
      replace (length pre + S (S (length post)))
        with (S (length pre + S (length post))) by lia.
      pose proof (or_loop_all_false (scheme_eval (S budget)) env [] pre
                    (e :: e' :: post) (S (length post)) h vs h1
                    (length pre + S (length post)) Hpre Hfalse) as Hloop.
      cbn [app length Nat.add] in Hloop. rewrite Hloop. cbn [or_loop].
      rewrite (py_getitem_middle pre e (e' :: post)), bind_lift_inr.
      apply (bind_inl _ _ _ _ _ He).
Qed.

Lemma operand_exceptions_propagate_witness :
  scheme_eval (H := no_primitives) 2
    (form "begin" ([PyInt 1] ++ sym "unbound" :: [PyInt 3])) 0 global_only
  = Some (global_only, inl (SchemeError (UnboundIdentifier "unbound"))).
Proof.
  apply (proj1 (operand_exceptions_propagate (H := no_primitives) 0 0 global_only
                  [PyInt 1] (sym "unbound") [PyInt 3] [PyInt 1]
                  global_only global_only
                  (SchemeError (UnboundIdentifier "unbound"))
                  ltac:(eapply eval_operands_cons;
                        [vm_compute; reflexivity | apply eval_operands_nil])
                  ltac:(vm_compute; reflexivity))).
Defined.

Lemma check_form_accepts_witness :
  check_form (scheme_list [PyInt 1; PyInt 2; PyInt 3]) 1 (Some 2)
  = inl (SchemeError TooManyOperands).
Proof.
  apply (proj2 (proj2 (proj2 (check_form_accepts
           (scheme_list [PyInt 1; PyInt 2; PyInt 3]) 1 (Some 2))))
           [PyInt 1; PyInt 2; PyInt 3] 2 eq_refl);
    [cbn; lia | reflexivity | cbn; lia].
Defined.

Lemma check_formals_accepts_witness :
  exists l, scheme_list [sym "a"; sym "b"] = scheme_list l /\ symbols l /\ NoDup l.
Proof.
  apply (proj1 (check_formals_accepts (scheme_list [sym "a"; sym "b"]))).
  vm_compute. reflexivity.
Defined.

Lemma list_from_pair_inverse_witness :
  list_from_pair (Pair (PyInt 1) (PyInt 2)) = inl AttributeError.
Proof.
  apply (proj2 (proj2 (list_from_pair_inverse (Pair (PyInt 1) (PyInt 2))))).
  reflexivity.
Defined.
